(** * monsoon, cmd/fuzz: the pipeline set-up of a fuzz run

    A shallow embedding of [cmd/fuzz/main.go].  The file builds the
    streaming pipeline of a run (producer, skip/limit, rate limiter,
    runners, marker, recorder, reporter).  The embedding has three parts:

    - the option record and its validation ([compileRegexps],
      [splitShell], [valid]);
    - the sequential set-up code of [run], as a state-and-error monad over
      a [World] that records, in program order, every channel made, every
      goroutine started and every file touched;
    - the goroutines started by [startRunners] and their [sync.WaitGroup],
      as an interleaving step relation (module [Pool]).

    Calls into other packages ([regexp], [shell], [os], [net/url],
    [producer], [response], [recorder], [reporter]) are read from an
    [Env] record of oracles, or recorded in the trace. *)

From Stdlib Require Import ZArith List String Bool Lia Sorted Relations.
From Stdlib Require Import Floats.SpecFloat.
Import ListNotations.
Local Open Scope string_scope.
Local Open Scope list_scope.
Local Open Scope Z_scope.

(** ** Values of the Go program *)

(** Go [error] values that [main.go] creates or passes on. *)
Inductive error : Type :=
| ErrBothSources
    (* errors.New("only one source allowed but both range and filename specified") *)
| ErrRegexpCompile (pat : string) (cause : error)
    (* fmt.Errorf("regexp %q failed to compile: %v", pat, err) *)
| ErrInvalidCommand (cmd : string)
    (* fmt.Errorf("invalid command: %q", cmd) *)
| ErrRangeFormat
    (* errors.New("wrong format for range, expected: first-last") *)
| ErrNothingToDo
    (* errors.New("neither file nor range specified, nothing to do") *)
| ErrNoURL
    (* errors.New("last argument needs to be the URL") *)
| ErrManyURLs
    (* errors.New("more than one target URL specified") *)
| ErrUseLastResponse
    (* http.ErrUseLastResponse *)
| ErrExternal (msg : string).
    (* an error value returned by a library call *)

(** The two-valued returns [(x, err)] of Go. *)
Inductive res (A : Type) : Type :=
| ok (a : A)
| fail (e : error).
Arguments ok {A} a.
Arguments fail {A} e.

(** [*regexp.Regexp]: a compiled expression, known by its source text. *)
Inductive Regexp : Type := MustCompile (pat : string).

(** [float64], as IEEE 754 binary data ([SpecFloat.spec_float]). *)
Definition float64 : Type := spec_float.
Definition float64_zero : float64 := S754_zero false.
(** Go's [x > 0] on [float64]: false on NaN. *)
Definition float64_gt0 (x : float64) : bool := SFltb float64_zero x.
(** Go's [x <= 0] on [float64]: false on NaN. *)
Definition float64_le0 (x : float64) : bool := SFleb x float64_zero.

(** Go's [int] is 64 bits wide here. *)
Definition wrap64 (z : Z) : Z := (z + 2 ^ 63) mod 2 ^ 64 - 2 ^ 63.

(** [len(s)] of a slice, as a Go [int]. *)
Definition len {A : Type} (s : list A) : Z := Z.of_nat (List.length s).

(** [*request.Request]: the fields [main.go] reads or writes. *)
Record Request : Type := mkRequest {
  URL : string;
  Insecure : bool;
  Template : string  (* method, header and body: opaque here *)
}.

(** [type Options struct]. *)
Record Options : Type := mkOptions {
  Range : string;
  RangeFormat : string;
  Filename : string;
  Logfile : string;
  Logdir : string;
  Threads : Z;
  RequestsPerSecond : float64;
  BufferSize : Z;
  Skip : Z;
  Limit : Z;
  Request_ : Request;      (* Request *request.Request *)
  FollowRedirect : Z;
  HideStatusCodes : list Z;
  HideHeaderSize : list string;
  HideBodySize : list string;
  HidePattern : list string;
  hidePattern : list Regexp;
  ShowPattern : list string;
  showPattern : list Regexp;
  Extract_ : list string;  (* Extract []string *)
  extract : list Regexp;
  ExtractPipe : list string;
  extractPipe : list (list string);
  BodyBufferSize : Z
}.

(** Assignments to single fields of [*opts]. *)
Definition set_extract (o : Options) (v : list Regexp) : Options :=
  mkOptions (Range o) (RangeFormat o) (Filename o) (Logfile o) (Logdir o)
    (Threads o) (RequestsPerSecond o) (BufferSize o) (Skip o) (Limit o)
    (Request_ o) (FollowRedirect o) (HideStatusCodes o) (HideHeaderSize o)
    (HideBodySize o) (HidePattern o) (hidePattern o) (ShowPattern o)
    (showPattern o) (Extract_ o) v (ExtractPipe o) (extractPipe o)
    (BodyBufferSize o).

Definition set_extractPipe (o : Options) (v : list (list string)) : Options :=
  mkOptions (Range o) (RangeFormat o) (Filename o) (Logfile o) (Logdir o)
    (Threads o) (RequestsPerSecond o) (BufferSize o) (Skip o) (Limit o)
    (Request_ o) (FollowRedirect o) (HideStatusCodes o) (HideHeaderSize o)
    (HideBodySize o) (HidePattern o) (hidePattern o) (ShowPattern o)
    (showPattern o) (Extract_ o) (extract o) (ExtractPipe o) v
    (BodyBufferSize o).

Definition set_hidePattern (o : Options) (v : list Regexp) : Options :=
  mkOptions (Range o) (RangeFormat o) (Filename o) (Logfile o) (Logdir o)
    (Threads o) (RequestsPerSecond o) (BufferSize o) (Skip o) (Limit o)
    (Request_ o) (FollowRedirect o) (HideStatusCodes o) (HideHeaderSize o)
    (HideBodySize o) (HidePattern o) v (ShowPattern o)
    (showPattern o) (Extract_ o) (extract o) (ExtractPipe o) (extractPipe o)
    (BodyBufferSize o).

Definition set_showPattern (o : Options) (v : list Regexp) : Options :=
  mkOptions (Range o) (RangeFormat o) (Filename o) (Logfile o) (Logdir o)
    (Threads o) (RequestsPerSecond o) (BufferSize o) (Skip o) (Limit o)
    (Request_ o) (FollowRedirect o) (HideStatusCodes o) (HideHeaderSize o)
    (HideBodySize o) (HidePattern o) (hidePattern o) (ShowPattern o)
    v (Extract_ o) (extract o) (ExtractPipe o) (extractPipe o)
    (BodyBufferSize o).

(** [opts.Request.URL = u]. *)
Definition set_Request_URL (o : Options) (u : string) : Options :=
  mkOptions (Range o) (RangeFormat o) (Filename o) (Logfile o) (Logdir o)
    (Threads o) (RequestsPerSecond o) (BufferSize o) (Skip o) (Limit o)
    (mkRequest u (Insecure (Request_ o)) (Template (Request_ o)))
    (FollowRedirect o) (HideStatusCodes o) (HideHeaderSize o)
    (HideBodySize o) (HidePattern o) (hidePattern o) (ShowPattern o)
    (showPattern o) (Extract_ o) (extract o) (ExtractPipe o) (extractPipe o)
    (BodyBufferSize o).

(** ** The world outside [main.go] *)

(** Where a line producer reads from. *)
Inductive Source : Type :=
| Stdin
| File (name : string).

(** What the library calls of one run answer.  [None] in an
    [option error] is Go's [nil] error. *)
Record Env : Type := mkEnv {
  regexp_Compile : string -> option error;
  shell_Split : string -> res (list string);
  shell_Join_os_Args : string;
  url_Parse_Host : string -> res string;
  time_Now_Format : string;
  filepath_Join : string -> string -> string;
  fmt_Sscanf_range : string -> option (Z * Z);
  os_Open : string -> option error;
  os_Create : string -> option error;
  response_NewFilterSize : list string -> list string -> option error;
  recorder_New : string -> option error;
  reporter_Display : option error
}.

(** ** Validation of the options *)

Section Validation.
Variable env : Env.

(** [compileRegexps]: the loop, with [res] as the slice built so far. *)
Fixpoint compileRegexps_from (pattern : list string) (acc : list Regexp)
  : res (list Regexp) :=
  match pattern with
  | [] => ok acc
  | pat :: rest =>
      match regexp_Compile env pat with
      | Some err => fail (ErrRegexpCompile pat err)
      | None => compileRegexps_from rest (acc ++ [MustCompile pat])
      end
  end.

Definition compileRegexps (pattern : list string) : res (list Regexp) :=
  compileRegexps_from pattern [].

(** [splitShell]: the loop, with [data] as the slice built so far. *)
Fixpoint splitShell_from (cmds : list string) (data : list (list string))
  : res (list (list string)) :=
  match cmds with
  | [] => ok data
  | cmd :: rest =>
      match shell_Split env cmd with
      | fail err => fail err
      | ok args =>
          if len args <? 1 then fail (ErrInvalidCommand cmd)
          else splitShell_from rest (data ++ [args])
      end
  end.

Definition splitShell (cmds : list string) : res (list (list string)) :=
  splitShell_from cmds [].

(** [Options.valid]: the options after the call, and the error
    returned.  A failed step has already assigned [nil] to its field. *)
Definition valid (opts : Options) : Options * option error :=
  if negb (Range opts =? "")%string && negb (Filename opts =? "")%string
  then (opts, Some ErrBothSources)
  else
    match compileRegexps (Extract_ opts) with
    | fail err => (set_extract opts [], Some err)
    | ok rs =>
    let opts := set_extract opts rs in
    match splitShell (ExtractPipe opts) with
    | fail err => (set_extractPipe opts [], Some err)
    | ok cs =>
    let opts := set_extractPipe opts cs in
    match compileRegexps (HidePattern opts) with
    | fail err => (set_hidePattern opts [], Some err)
    | ok hs =>
    let opts := set_hidePattern opts hs in
    match compileRegexps (ShowPattern opts) with
    | fail err => (set_showPattern opts [], Some err)
    | ok ss => (set_showPattern opts ss, None)
    end end end end.

End Validation.

(** ** The world a run acts on *)

(** A channel, known by the order in which it was made. *)
Definition chan : Type := nat.

(** [*http.Request], as far as the redirect check looks at it. *)
Record HttpRequest : Type := mkHttpRequest { req_URL : string }.

(** The values of interface [response.Filter] that [main.go] builds. *)
Inductive Filter : Type :=
| FilterStatusCode (codes : list Z)            (* response.NewFilterStatusCode *)
| FilterSize (header body : list string)       (* response.NewFilterSize *)
| FilterRejectPattern (Pattern : list Regexp)
| FilterAcceptPattern (Pattern : list Regexp).

(** [*response.Runner] as [startRunners] leaves it. *)
Record Runner : Type := mkRunner {
  Transport_Insecure : bool;     (* response.NewTransport(opts.Request.Insecure) *)
  Runner_Request : Request;
  Runner_in : chan;
  Runner_out : chan;
  Runner_BodyBufferSize : Z;
  Runner_Extract : list Regexp;
  Runner_ExtractPipe : list (list string);
  Client_CheckRedirect : HttpRequest -> list HttpRequest -> option error
}.

(** [cli.Terminal]: plain, or with a copy written to a log file. *)
Inductive Terminal : Type :=
| Termstatus
| LogTerminal (logfile : string).

(** Goroutines started by [main.go] itself ([go] and [g.Go]). *)
Inductive Goroutine : Type :=
| GoProducerRange (first last : Z) (format : string) (ch count : chan)
| GoProducerReader (src : Source) (ch count : chan)
| GoTermRun (term : Terminal)
| GoRunnerRun (runner : Runner)      (* runner.Run(ctx); wg.Done() *)
| GoWaitClose (out : chan)           (* wg.Wait(); close(out) *)
| GoRecorderRun (store : string) (in_ out inCount outCount : chan).

(** Pipeline stages built by calls into packages [producer] and
    [response]; each reads [in_] and hands back [out]. *)
Inductive Stage : Type :=
| SkipCount (n : Z) (in_ out : chan)     (* (&FilterSkip{Skip: n}).Count *)
| SkipSelect (n : Z) (in_ out : chan)    (* (&FilterSkip{Skip: n}).Select *)
| LimitCount (max : Z) (in_ out : chan)  (* (&FilterLimit{Max: max}).Count *)
| LimitSelect (max : Z) (in_ out : chan) (* (&FilterLimit{Max: max}).Select *)
| RateLimit (perSecond : float64) (in_ out : chan)  (* producer.Limit *)
| Mark (in_ out : chan) (filters : list Filter).    (* response.Mark *)

(** What a run does, one entry per action. *)
Inductive Event : Type :=
| EvMake (c : chan) (size : Z)       (* c := make(chan T, size) *)
| EvWgAdd                            (* wg.Add(1) *)
| EvGo (g : Goroutine)
| EvStage (s : Stage)
| EvStdout (text : string)           (* fmt.Printf *)
| EvOpen (name : string)             (* os.Open *)
| EvCreate (name : string)           (* os.Create *)
| EvFprintln (name : string) (text : string)
| EvLogSetOutput                     (* log.SetOutput(w.Stderr()) *)
| EvRecorderNew (store : string)     (* recorder.New *)
| EvTermPrintf (term : Terminal) (text : string)
| EvDisplay (responseCh countCh : chan)  (* reporter.Display *)
| EvCancel.                          (* the deferred cleanup() *)

(** The state of a run: the next channel to be made and the events so
    far, newest first. *)
Record World : Type := mkWorld {
  next_chan : nat;
  log : list Event
}.

Definition World0 : World := mkWorld 0%nat [].

(** The events in program order. *)
Definition trace (w : World) : list Event := rev (log w).

(** How a Go function ends: it returns, returns a non-nil error, or
    panics. *)
Inductive Outcome (A : Type) : Type :=
| Ret (a : A)
| Raise (e : error)
| Panic.
Arguments Ret {A} a.
Arguments Raise {A} e.
Arguments Panic {A}.

Definition M (A : Type) : Type := World -> Outcome A * World.

Definition ret {A : Type} (a : A) : M A := fun w => (Ret a, w).

Definition raise {A : Type} (e : error) : M A := fun w => (Raise e, w).

Definition bind {A B : Type} (m : M A) (f : A -> M B) : M B :=
  fun w =>
    match m w with
    | (Ret a, w1) => f a w1
    | (Raise e, w1) => (Raise e, w1)
    | (Panic, w1) => (Panic, w1)
    end.

Notation "x <- m ;; k" := (bind m (fun x => k))
  (at level 61, m at next level, right associativity).
Notation "' pat <- m ;; k" :=
  (bind m (fun x => match x with pat => k end))
  (at level 61, pat pattern, m at next level, right associativity).
Notation "m ;; k" := (bind m (fun _ => k))
  (at level 61, right associativity).

Definition emit (e : Event) : M unit :=
  fun w => (Ret tt, mkWorld (next_chan w) (e :: log w)).

(** [go f()] and [g.Go(f)]. *)
Definition go (g : Goroutine) : M unit := emit (EvGo g).

(** A channel nobody holds yet. *)
Definition new_chan : M chan :=
  fun w => (Ret (next_chan w), mkWorld (S (next_chan w)) (log w)).

(** [make(chan T, size)]; a negative size panics.  A size too large for
    the runtime to allocate is not modelled. *)
Definition make_chan (size : Z) : M chan :=
  if size <? 0 then (fun w => (Panic, w))
  else (c <- new_chan ;; emit (EvMake c size) ;; ret c).

(** [if err != nil { return err }] after a call that returns [err]. *)
Definition check (r : option error) : M unit :=
  match r with
  | Some err => raise err
  | None => ret tt
  end.

(** [defer f()] around the rest of a function body: [f] runs however
    the body ends. *)
Definition defer (f : Event) {A : Type} (body : M A) : M A :=
  fun w =>
    let (o, w1) := body w in
    (o, mkWorld (next_chan w1) (f :: log w1)).

Definition nl : string := String (Ascii.ascii_of_nat 10) EmptyString.

(** Modelled from the spec: the stage constructors of package [producer]
    ([FilterSkip.Count], [FilterSkip.Select], [FilterLimit.Count],
    [FilterLimit.Select], [Limit]) and [response.Mark], which are not in
    [main.go].  Each takes its input channel and returns the channel it
    writes to (sections 4.2, 4.3 and 4.5 of the specification). *)
Definition stage (mk : chan -> chan -> Stage) (in_ : chan) : M chan :=
  out <- new_chan ;;
  emit (EvStage (mk in_ out)) ;;
  ret out.

(** ** The set-up functions of [main.go] *)

Section Setup.
Variable env : Env.

(** [logfilePath]. *)
Definition logfilePath (opts : Options) (inputURL : string) : res string :=
  if negb (Logdir opts =? "")%string && (Logfile opts =? "")%string then
    match url_Parse_Host env inputURL with
    | fail err => fail err
    | ok host =>
        let ts := time_Now_Format env in
        let fn := ("monsoon_" ++ host ++ "_" ++ ts)%string in
        let p := filepath_Join env (Logdir opts) fn in
        ok p
    end
  else ok (Logfile opts).

(** [setupProducer]. *)
Definition setupProducer (opts : Options) (ch count : chan) : M unit :=
  if negb (Range opts =? "")%string then
    match fmt_Sscanf_range env (Range opts) with
    | None => raise ErrRangeFormat
    | Some (first, last) =>
        go (GoProducerRange first last (RangeFormat opts) ch count)
    end
  else if (Filename opts =? "-")%string then
    go (GoProducerReader Stdin ch count)
  else if negb (Filename opts =? "")%string then
    emit (EvOpen (Filename opts)) ;;
    check (os_Open env (Filename opts)) ;;
    go (GoProducerReader (File (Filename opts)) ch count)
  else raise ErrNothingToDo.

(** [setupTerminal]; the [cleanup] it returns is always [cancel]. *)
Definition setupTerminal (logfilePrefix : string) : M Terminal :=
  term <-
    (if negb (logfilePrefix =? "")%string then
       emit (EvStdout ("logfile is " ++ logfilePrefix ++ ".log" ++ nl)%string) ;;
       emit (EvCreate (logfilePrefix ++ ".log")%string) ;;
       check (os_Create env (logfilePrefix ++ ".log")%string) ;;
       emit (EvFprintln (logfilePrefix ++ ".log")%string (shell_Join_os_Args env)) ;;
       ret (LogTerminal (logfilePrefix ++ ".log")%string)
     else ret Termstatus) ;;
  emit EvLogSetOutput ;;
  go (GoTermRun term) ;;
  ret term.

(** [setupResponseFilters]. *)
Definition setupResponseFilters (opts : Options) : res (list Filter) :=
  let filters := [FilterStatusCode (HideStatusCodes opts)] in
  let step1 :=
    if (len (HideHeaderSize opts) >? 0) || (len (HideBodySize opts) >? 0) then
      match response_NewFilterSize env (HideHeaderSize opts) (HideBodySize opts) with
      | Some err => fail err
      | None => ok (filters ++ [FilterSize (HideHeaderSize opts) (HideBodySize opts)])
      end
    else ok filters in
  match step1 with
  | fail err => fail err
  | ok filters =>
      let filters :=
        if len (hidePattern opts) >? 0
        then filters ++ [FilterRejectPattern (hidePattern opts)]
        else filters in
      let filters :=
        if len (showPattern opts) >? 0
        then filters ++ [FilterAcceptPattern (showPattern opts)]
        else filters in
      ok filters
  end.

(** [setupValueFilters]. *)
Definition setupValueFilters (opts : Options) (valueCh countCh : chan)
  : M (chan * chan) :=
  '(valueCh, countCh) <-
    (if Skip opts >? 0 then
       countCh <- stage (SkipCount (Skip opts)) countCh ;;
       valueCh <- stage (SkipSelect (Skip opts)) valueCh ;;
       ret (valueCh, countCh)
     else ret (valueCh, countCh)) ;;
  '(valueCh, countCh) <-
    (if Limit opts >? 0 then
       countCh <- stage (LimitCount (Limit opts)) countCh ;;
       valueCh <- stage (LimitSelect (Limit opts)) valueCh ;;
       ret (valueCh, countCh)
     else ret (valueCh, countCh)) ;;
  ret (valueCh, countCh).

(** The function literal assigned to [runner.Client.CheckRedirect]. *)
Definition CheckRedirect (opts : Options)
  (req : HttpRequest) (via : list HttpRequest) : option error :=
  if len via <=? FollowRedirect opts then None
  else Some ErrUseLastResponse.

(** The runner built in one turn of the loop of [startRunners]. *)
Definition newRunner (opts : Options) (in_ out : chan) : Runner :=
  mkRunner (Insecure (Request_ opts)) (Request_ opts) in_ out
    (wrap64 (wrap64 (BodyBufferSize opts * 1024) * 1024))
    (extract opts) (extractPipe opts) (CheckRedirect opts).

(** The loop [for i := 0; i < opts.Threads; i++] of [startRunners], by
    the number of turns left. *)
Fixpoint startRunners_loop (turns : nat) (opts : Options) (in_ out : chan)
  : M unit :=
  match turns with
  | O => ret tt
  | S turns' =>
      let runner := newRunner opts in_ out in
      emit EvWgAdd ;;
      go (GoRunnerRun runner) ;;
      startRunners_loop turns' opts in_ out
  end.

(** [startRunners]. *)
Definition startRunners (opts : Options) (in_ : chan) : M chan :=
  out <- make_chan 0 ;;
  startRunners_loop (Z.to_nat (Threads opts)) opts in_ out ;;
  go (GoWaitClose out) ;;
  ret out.

(** Lines 384-387 of [run]: limit the throughput (if requested). *)
Definition limitThroughput (opts : Options) (valueCh : chan) : M chan :=
  if float64_gt0 (RequestsPerSecond opts)
  then stage (RateLimit (RequestsPerSecond opts)) valueCh
  else ret valueCh.

(** Lines 395-412 of [run]: the recorder, if a log file prefix is set. *)
Definition setupRecorder (opts : Options) (logfilePrefix : string)
  (responseCh countCh : chan) : M (chan * chan) :=
  if negb (logfilePrefix =? "")%string then
    emit (EvRecorderNew (logfilePrefix ++ ".json")%string) ;;
    check (recorder_New env (logfilePrefix ++ ".json")%string) ;;
    out <- make_chan 0 ;;
    let in_ := responseCh in
    outCount <- make_chan 0 ;;
    let inCount := countCh in
    go (GoRecorderRun (logfilePrefix ++ ".json")%string in_ out inCount outCount) ;;
    ret (out, outCount)
  else ret (responseCh, countCh).

(** [run]. *)
Definition run (opts : Options) (args : list string) : M unit :=
  if len args =? 0 then raise ErrNoURL
  else if len args >? 1 then raise ErrManyURLs
  else
    let (opts, err) := valid env opts in
    check err ;;
    let inputURL := hd "" args in
    let opts := set_Request_URL opts inputURL in
    match logfilePath opts inputURL with
    | fail err => raise err
    | ok logfilePrefix =>
    defer EvCancel (
      term <- setupTerminal logfilePrefix ;;
      match setupResponseFilters opts with
      | fail err => raise err
      | ok responseFilters =>
      vch <- make_chan (BufferSize opts) ;;
      cch <- make_chan 1 ;;
      setupProducer opts vch cch ;;
      '(valueCh, countCh) <- setupValueFilters opts vch cch ;;
      valueCh <- limitThroughput opts valueCh ;;
      responseCh <- startRunners opts valueCh ;;
      responseCh <- stage (fun i o => Mark i o responseFilters) responseCh ;;
      '(responseCh, countCh) <-
        setupRecorder opts logfilePrefix responseCh countCh ;;
      emit (EvTermPrintf term ("input URL " ++ inputURL ++ nl ++ nl)%string) ;;
      emit (EvDisplay responseCh countCh) ;;
      check (reporter_Display env)
      end)
    end.

End Setup.

(** ** The HTTP client's redirect loop *)

Module Http.

(** What the server answers to one request. *)
Inductive Reply : Type :=
| Redirect (location : string)   (* a 3xx response with a Location *)
| Final (status : Z).

(** The loop of [net/http]'s [Client.Do], as its documentation gives it:
    a request is sent and added to [via]; a redirect reply is followed
    only if [CheckRedirect (next, via)] returns [nil]; on
    [http.ErrUseLastResponse] the last reply is returned with a [nil]
    error, on any other error the reply is returned with that error.
    The result holds the last reply, the error, and the requests sent. *)
Fixpoint do (fuel : nat)
  (check : HttpRequest -> list HttpRequest -> option error)
  (server : HttpRequest -> Reply)
  (req : HttpRequest) (via : list HttpRequest)
  : option (Reply * option error * list HttpRequest) :=
  match fuel with
  | O => None
  | S fuel' =>
      let resp := server req in
      let via := via ++ [req] in
      match resp with
      | Final _ => Some (resp, None, via)
      | Redirect location =>
          let next := mkHttpRequest location in
          match check next via with
          | None => do fuel' check server next via
          | Some ErrUseLastResponse => Some (resp, None, via)
          | Some err => Some (resp, Some err, via)
          end
      end
  end.

(** The redirects followed: every request sent but the first. *)
Definition followed (sent : list HttpRequest) : Z := len sent - 1.

End Http.

(** ** The goroutines of [startRunners] *)

Module Pool.

(** Where the goroutine that called [startRunners] stands. *)
Inductive MainPc : Type :=
| AtLoop (i : Z)    (* at the test [i < opts.Threads] *)
| AtGo (i : Z)      (* [wg.Add(1)] done, at the [go] of turn [i] *)
| AtGoCloser        (* past the loop, at the last [go] *)
| Returned.         (* [return out] *)

(** Where a runner goroutine stands.

    Modelled from the spec: [Runner.Run] of package [response], which is
    not in [main.go].  A worker receives a value from the input channel,
    executes the request and writes one response record to the output
    channel (section 4.4); when [Run] returns is left open. *)
Inductive RunnerPc : Type :=
| Idle              (* in [runner.Run], waiting for a value *)
| Busy              (* in [runner.Run], a request in flight *)
| AtDone            (* [runner.Run] returned, at [wg.Done()] *)
| Finished.

(** Where the goroutine of lines 324-328 stands. *)
Inductive CloserPc : Type :=
| NotStarted
| AtWait            (* at [wg.Wait()] *)
| AtClose           (* at [close(out)] *)
| Closed.

Record State : Type := mkState {
  main : MainPc;
  wg : Z;                    (* the counter of [wg] *)
  runners : list RunnerPc;   (* in the order they were started *)
  closer : CloserPc;
  out_closed : bool;
  consumed : nat;            (* values received from [in] *)
  out_sent : nat;            (* records sent on [out] *)
  panicked : bool            (* a send on the closed [out] *)
}.

Definition init : State :=
  mkState (AtLoop 0) 0 [] NotStarted false 0%nat 0%nat false.

(** One step of one goroutine; [T] is [opts.Threads]. *)
Inductive step (T : Z) : State -> State -> Prop :=
| step_add : forall i w rs c oc n m p,
    i < T ->
    step T (mkState (AtLoop i) w rs c oc n m p)
           (mkState (AtGo i) (w + 1) rs c oc n m p)
| step_go : forall i w rs c oc n m p,
    step T (mkState (AtGo i) w rs c oc n m p)
           (mkState (AtLoop (i + 1)) w (rs ++ [Idle]) c oc n m p)
| step_loop_exit : forall i w rs c oc n m p,
    ~ i < T ->
    step T (mkState (AtLoop i) w rs c oc n m p)
           (mkState AtGoCloser w rs c oc n m p)
| step_go_closer : forall w rs oc n m p,
    step T (mkState AtGoCloser w rs NotStarted oc n m p)
           (mkState Returned w rs AtWait oc n m p)
| step_receive : forall mn w rs1 rs2 c oc n m p,
    step T (mkState mn w (rs1 ++ Idle :: rs2) c oc n m p)
           (mkState mn w (rs1 ++ Busy :: rs2) c oc (S n) m p)
| step_send : forall mn w rs1 rs2 c n m p,
    step T (mkState mn w (rs1 ++ Busy :: rs2) c false n m p)
           (mkState mn w (rs1 ++ Idle :: rs2) c false n (S m) p)
| step_send_closed : forall mn w rs1 rs2 c n m p,
    step T (mkState mn w (rs1 ++ Busy :: rs2) c true n m p)
           (mkState mn w (rs1 ++ Finished :: rs2) c true n m true)
| step_run_returns : forall mn w rs1 r rs2 c oc n m p,
    r = Idle \/ r = Busy ->
    step T (mkState mn w (rs1 ++ r :: rs2) c oc n m p)
           (mkState mn w (rs1 ++ AtDone :: rs2) c oc n m p)
| step_done : forall mn w rs1 rs2 c oc n m p,
    step T (mkState mn w (rs1 ++ AtDone :: rs2) c oc n m p)
           (mkState mn (w - 1) (rs1 ++ Finished :: rs2) c oc n m p)
| step_wait : forall mn rs oc n m p,
    step T (mkState mn 0 rs AtWait oc n m p)
           (mkState mn 0 rs AtClose oc n m p)
| step_close : forall mn w rs oc n m p,
    step T (mkState mn w rs AtClose oc n m p)
           (mkState mn w rs Closed true n m p).

(** The states a pool of [T] threads can reach. *)
Inductive reachable (T : Z) : State -> Prop :=
| reach_init : reachable T init
| reach_step : forall s s', reachable T s -> step T s s' -> reachable T s'.

(** A runner that has not yet returned from its goroutine. *)
Definition running (r : RunnerPc) : bool :=
  match r with
  | Finished => false
  | _ => true
  end.

(** The runners that have not yet called [wg.Done()]. *)
Fixpoint active (rs : list RunnerPc) : Z :=
  match rs with
  | [] => 0
  | r :: rs' => (if running r then 1 else 0) + active rs'
  end.

(** What holds of every state a pool of [T] threads can reach: the
    counter of [wg] is the number of runners that have not called
    [wg.Done()], plus one between a [wg.Add(1)] and its [go]; the closing
    goroutine exists only once the loop is over; and it is past
    [wg.Wait()] only when no runner is left. *)
Definition inv (T : Z) (s : State) : Prop :=
  match main s with
  | AtLoop i =>
      0 <= i <= Z.max 0 T /\ List.length (runners s) = Z.to_nat i /\
      wg s = active (runners s) /\ closer s = NotStarted
  | AtGo i =>
      0 <= i < T /\ List.length (runners s) = Z.to_nat i /\
      wg s = active (runners s) + 1 /\ closer s = NotStarted
  | AtGoCloser =>
      List.length (runners s) = Z.to_nat T /\
      wg s = active (runners s) /\ closer s = NotStarted
  | Returned =>
      List.length (runners s) = Z.to_nat T /\
      wg s = active (runners s) /\ closer s <> NotStarted
  end /\
  match closer s with
  | NotStarted | AtWait => out_closed s = false
  | AtClose => out_closed s = false /\ active (runners s) = 0
  | Closed => out_closed s = true /\ active (runners s) = 0
  end /\
  panicked s = false.

(** The states of a pool without threads, from the call to the closed
    channel. *)
Definition idle_run : list State :=
  [ init;
    mkState AtGoCloser 0 [] NotStarted false 0%nat 0%nat false;
    mkState Returned 0 [] AtWait false 0%nat 0%nat false;
    mkState Returned 0 [] AtClose false 0%nat 0%nat false;
    mkState Returned 0 [] Closed true 0%nat 0%nat false ].

(** A pool of one thread whose runner has returned and whose output
    channel is closed. *)
Definition closed_one : State :=
  mkState Returned 0 [Finished] Closed true 0%nat 0%nat false.

End Pool.

(** ** Reading a log *)

(** The entries of a log that [f] picks, newest first. *)
Fixpoint pick {A : Type} (f : Event -> option A) (l : list Event) : list A :=
  match l with
  | [] => []
  | e :: l' =>
      match f e with
      | Some a => a :: pick f l'
      | None => pick f l'
      end
  end.

(** The runners whose goroutine was started. *)
Definition runners_of : list Event -> list Runner :=
  pick (fun e => match e with EvGo (GoRunnerRun r) => Some r | _ => None end).

(** The stages that were built. *)
Definition stages_of : list Event -> list Stage :=
  pick (fun e => match e with EvStage s => Some s | _ => None end).

(** The producers whose goroutine was started, each as (ch, count). *)
Definition producers_of : list Event -> list (chan * chan) :=
  pick (fun e =>
          match e with
          | EvGo (GoProducerRange _ _ _ ch count)
          | EvGo (GoProducerReader _ ch count) => Some (ch, count)
          | _ => None
          end).

(** The recorders whose goroutine was started, each as
    (store, in, out, inCount, outCount). *)
Definition recorders_of : list Event -> list (string * chan * chan * chan * chan) :=
  pick (fun e =>
          match e with
          | EvGo (GoRecorderRun f i o ic oc) => Some (f, i, o, ic, oc)
          | _ => None
          end).

(** The calls of [reporter.Display], each as (responseCh, countCh). *)
Definition displays_of : list Event -> list (chan * chan) :=
  pick (fun e => match e with EvDisplay r c => Some (r, c) | _ => None end).

(** The stores [recorder.New] was asked to open. *)
Definition stores_of : list Event -> list string :=
  pick (fun e => match e with EvRecorderNew f => Some f | _ => None end).

Definition is_SkipCount (s : Stage) : bool :=
  match s with SkipCount _ _ _ => true | _ => false end.
Definition is_SkipSelect (s : Stage) : bool :=
  match s with SkipSelect _ _ _ => true | _ => false end.
Definition is_LimitCount (s : Stage) : bool :=
  match s with LimitCount _ _ _ => true | _ => false end.
Definition is_LimitSelect (s : Stage) : bool :=
  match s with LimitSelect _ _ _ => true | _ => false end.
Definition is_RateLimit (s : Stage) : bool :=
  match s with RateLimit _ _ _ => true | _ => false end.

Definition is_FilterStatusCode (f : Filter) : bool :=
  match f with FilterStatusCode _ => true | _ => false end.
Definition is_FilterSize (f : Filter) : bool :=
  match f with FilterSize _ _ => true | _ => false end.
Definition is_FilterRejectPattern (f : Filter) : bool :=
  match f with FilterRejectPattern _ => true | _ => false end.
Definition is_FilterAcceptPattern (f : Filter) : bool :=
  match f with FilterAcceptPattern _ => true | _ => false end.

(** The place of a filter in the order (a), (b), (c), (d). *)
Definition rank (f : Filter) : nat :=
  match f with
  | FilterStatusCode _ => 0
  | FilterSize _ _ => 1
  | FilterRejectPattern _ => 2
  | FilterAcceptPattern _ => 3
  end.

(** A command line that [splitShell] turns down: it does not split, or
    splits to no argument. *)
Definition bad_command (env : Env) (c : string) : Prop :=
  match shell_Split env c with
  | fail _ => True
  | ok args => len args < 1
  end.

(** A pattern that [regexp.Compile] turns down. *)
Definition bad_pattern (env : Env) (p : string) : Prop :=
  regexp_Compile env p <> None.

(** The postcondition [Q] holds of what [m] does from [w]. *)
Definition wp {A : Type} (m : M A) (Q : Outcome A -> World -> Prop)
  (w : World) : Prop :=
  Q (fst (m w)) (snd (m w)).

(** ** Sample configurations *)

Module Sample.

(** Every library call succeeds, but: the pattern "(" does not compile,
    the command "'" does not split, the empty command splits to no
    argument, and only "1-3" scans as a range. *)
Definition env : Env := mkEnv
  (fun p => if (p =? "(")%string then Some (ErrExternal "missing )") else None)
  (fun c => if (c =? "'")%string then fail (ErrExternal "unterminated quote")
            else if (c =? "")%string then ok [] else ok [c])
  "monsoon fuzz"
  (fun u => ok "host")
  "20060102_150405"
  (fun a b => (a ++ "/" ++ b)%string)
  (fun r => if (r =? "1-3")%string then Some (1, 3) else None)
  (fun f => None)
  (fun f => None)
  (fun h b => None)
  (fun f => None)
  None.


Definition request : Request := mkRequest "" false "GET".

(** [fuzz --range 1-3 --threads 2 URL], all else as the flags default. *)
Definition opts : Options :=
  mkOptions "1-3" "%d" "" "" "" 2 float64_zero 100000 0 0 request 0
    [] [] [] [] [] [] [] [] [] [] [] 5.

(** [opts] with [--logfile out]. *)
Definition opts_logfile : Options :=
  mkOptions "1-3" "%d" "" "out" "" 2 float64_zero 100000 0 0 request 0
    [] [] [] [] [] [] [] [] [] [] [] 5.

(** [opts] with all four kinds of response filter. *)
Definition opts_filters : Options :=
  mkOptions "1-3" "%d" "" "" "" 2 float64_zero 100000 0 0 request 0
    [404] ["100-200"] [] ["a"] [MustCompile "a"] ["b"] [MustCompile "b"]
    [] [] [] [] 5.

(** [opts] with [--threads 0]. *)
Definition opts_no_threads : Options :=
  mkOptions "1-3" "%d" "" "" "" 0 float64_zero 100000 0 0 request 0
    [] [] [] [] [] [] [] [] [] [] [] 5.

(** [opts] with [--follow-redirect 2]. *)
Definition opts_follow2 : Options :=
  mkOptions "1-3" "%d" "" "" "" 2 float64_zero 100000 0 0 request 2
    [] [] [] [] [] [] [] [] [] [] [] 5.

(** A server that answers every request with a redirect to "/next". *)
Definition redirecting (_ : HttpRequest) : Http.Reply := Http.Redirect "/next".

(** [opts] with [--requests-per-second 1] and [--skip 1]. *)
Definition opts_rate : Options :=
  mkOptions "1-3" "%d" "" "" "" 2 (S754_finite false 1 0) 100000 1 0
    request 0 [] [] [] [] [] [] [] [] [] [] [] 5.

(** [fuzz URL] with neither [--range] nor [--file]. *)
Definition opts_no_source : Options :=
  mkOptions "" "%d" "" "" "" 2 float64_zero 100000 0 0 request 0
    [] [] [] [] [] [] [] [] [] [] [] 5.

(** [fuzz --range x URL]: a range that does not scan. *)
Definition opts_bad_range : Options :=
  mkOptions "x" "%d" "" "" "" 2 float64_zero 100000 0 0 request 0
    [] [] [] [] [] [] [] [] [] [] [] 5.

Definition args : list string := ["http://host/FUZZ"].

End Sample.

(** The fields that [valid] leaves alone. *)
Definition same_settings (o o' : Options) : Prop :=
  Range o' = Range o /\ RangeFormat o' = RangeFormat o /\
  Filename o' = Filename o /\ Logfile o' = Logfile o /\
  Logdir o' = Logdir o /\ Threads o' = Threads o /\
  RequestsPerSecond o' = RequestsPerSecond o /\
  BufferSize o' = BufferSize o /\ Skip o' = Skip o /\ Limit o' = Limit o /\
  Request_ o' = Request_ o /\ FollowRedirect o' = FollowRedirect o /\
  HideStatusCodes o' = HideStatusCodes o /\
  HideHeaderSize o' = HideHeaderSize o /\ HideBodySize o' = HideBodySize o /\
  HidePattern o' = HidePattern o /\ ShowPattern o' = ShowPattern o /\
  Extract_ o' = Extract_ o /\ ExtractPipe o' = ExtractPipe o /\
  BodyBufferSize o' = BodyBufferSize o.

(** The chain in the order (a) status code, (b) size, (c) reject pattern,
    (d) accept pattern, a filter that is not configured left out. *)
Definition chain_in_order (codes : list Z) (hsize bsize : list string)
  (hide show : list Regexp) : list Filter :=
  [FilterStatusCode codes]
  ++ (if (len hsize >? 0) || (len bsize >? 0)
      then [FilterSize hsize bsize] else [])
  ++ (if len hide >? 0 then [FilterRejectPattern hide] else [])
  ++ (if len show >? 0 then [FilterAcceptPattern show] else []).

(** ** More readers of a log *)

(** The files [os.Open] was asked for. *)
Definition opens_of : list Event -> list string :=
  pick (fun e => match e with EvOpen f => Some f | _ => None end).

(** The files [os.Create] was asked for. *)
Definition creates_of : list Event -> list string :=
  pick (fun e => match e with EvCreate f => Some f | _ => None end).

(** The terminals whose goroutine was started. *)
Definition terminals_of : list Event -> list Terminal :=
  pick (fun e => match e with EvGo (GoTermRun t) => Some t | _ => None end).

(** The channels that a closing goroutine was started for. *)
Definition closers_of : list Event -> list chan :=
  pick (fun e => match e with EvGo (GoWaitClose c) => Some c | _ => None end).

(** The calls of [wg.Add(1)]. *)
Definition wg_adds_of : list Event -> list unit :=
  pick (fun e => match e with EvWgAdd => Some tt | _ => None end).

(** The runs of the deferred [cleanup()]. *)
Definition cancels_of : list Event -> list unit :=
  pick (fun e => match e with EvCancel => Some tt | _ => None end).

(** The redirections of the [log] package's output. *)
Definition log_outputs_of : list Event -> list unit :=
  pick (fun e => match e with EvLogSetOutput => Some tt | _ => None end).

(** ** A measure of what a pool has left to do *)

Module Weight.
Import Pool.

Definition of_main (T : Z) (m : MainPc) : Z :=
  match m with
  | AtLoop i => 4 * Z.max 0 (T - i) + 2
  | AtGo i => 4 * (T - i) + 1
  | AtGoCloser => 1
  | Returned => 0
  end.

Definition of_runner (r : RunnerPc) : Z :=
  match r with
  | Idle | Busy => 2
  | AtDone => 1
  | Finished => 0
  end.

Fixpoint of_runners (rs : list RunnerPc) : Z :=
  match rs with
  | [] => 0
  | r :: rs' => of_runner r + of_runners rs'
  end.

Definition of_closer (c : CloserPc) : Z :=
  match c with
  | NotStarted => 3
  | AtWait => 2
  | AtClose => 1
  | Closed => 0
  end.

(** An upper bound on the steps to the closed channel, when every runner
    returns as soon as it can. *)
Definition of_state (T : Z) (s : State) : Z :=
  of_main T (main s) + of_runners (runners s) + of_closer (closer s).

End Weight.

(** ** The steps of [run] that can fail *)


(** The size specs are accepted: there is none, or
    [response.NewFilterSize] takes them. *)
Definition filters_ok (env : Env) (opts : Options) : Prop :=
  (HideHeaderSize opts = [] /\ HideBodySize opts = []) \/
  response_NewFilterSize env (HideHeaderSize opts) (HideBodySize opts) = None.



(** ** Applying a chain of filters *)

(** Modelled from the spec: [response.Mark] of package [response], which
    is not in [main.go].  Section 4.5: the rules of the chain are applied
    to each record in order, the record's hidden tag is the logical OR of
    all rules, and the record itself is never dropped.  [rejects f r]
    says whether rule [f] hides record [r]; the result holds the rules in
    the order they were applied and the tag. *)
Fixpoint Mark_apply {R : Type} (rejects : Filter -> R -> bool)
  (filters : list Filter) (r : R) (applied : list Filter) (hidden : bool)
  : list Filter * bool :=
  match filters with
  | [] => (applied, hidden)
  | f :: rest => Mark_apply rejects rest r (applied ++ [f]) (hidden || rejects f r)
  end.

Definition Mark_record {R : Type} (rejects : Filter -> R -> bool)
  (filters : list Filter) (r : R) : list Filter * bool :=
  Mark_apply rejects filters r [] false.

(** ** The steps of the pool outside [Runner.Run] *)

Module Sync.
Import Pool.

(** A runner that has returned from [runner.Run]. *)
Definition past_run (r : RunnerPc) : bool :=
  match r with
  | AtDone | Finished => true
  | Idle | Busy => false
  end.

(** The steps of [Pool.step] that [main.go] itself takes: the loop, the
    two [go] statements, [wg.Done()], [wg.Wait()] and [close(out)].  None
    of them waits for a channel. *)
Inductive step (T : Z) : State -> State -> Prop :=
| add : forall i w rs c oc n m p,
    i < T ->
    step T (mkState (AtLoop i) w rs c oc n m p)
           (mkState (AtGo i) (w + 1) rs c oc n m p)
| go_runner : forall i w rs c oc n m p,
    step T (mkState (AtGo i) w rs c oc n m p)
           (mkState (AtLoop (i + 1)) w (rs ++ [Idle]) c oc n m p)
| loop_exit : forall i w rs c oc n m p,
    ~ i < T ->
    step T (mkState (AtLoop i) w rs c oc n m p)
           (mkState AtGoCloser w rs c oc n m p)
| go_closer : forall w rs oc n m p,
    step T (mkState AtGoCloser w rs NotStarted oc n m p)
           (mkState Returned w rs AtWait oc n m p)
| done : forall mn w rs1 rs2 c oc n m p,
    step T (mkState mn w (rs1 ++ AtDone :: rs2) c oc n m p)
           (mkState mn (w - 1) (rs1 ++ Finished :: rs2) c oc n m p)
| wait : forall mn rs oc n m p,
    step T (mkState mn 0 rs AtWait oc n m p)
           (mkState mn 0 rs AtClose oc n m p)
| close : forall mn w rs oc n m p,
    step T (mkState mn w rs AtClose oc n m p)
           (mkState mn w rs Closed true n m p).

End Sync.

(** * Properties *)

(** ** [Options.valid] *)

Section ValidationFacts.
Variable env : Env.

Lemma compileRegexps_from_spec (ps : list string) : forall acc,
  match compileRegexps_from env ps acc with
  | ok rs =>
      Forall (fun p => regexp_Compile env p = None) ps /\
      rs = acc ++ map MustCompile ps
  | fail _ => Exists (bad_pattern env) ps
  end.
Proof.
  induction ps as [|p ps IH]; intros acc; simpl.
  - split; [constructor | now rewrite app_nil_r].
  - destruct (regexp_Compile env p) as [e|] eqn:Hp.
    + left. unfold bad_pattern. congruence.
    + specialize (IH (acc ++ [MustCompile p])).
      destruct (compileRegexps_from env ps (acc ++ [MustCompile p])).
      * destruct IH as [Hall ->]. split; [now constructor|].
        now rewrite <- app_assoc.
      * now right.
Qed.

Lemma compileRegexps_spec (ps : list string) :
  match compileRegexps env ps with
  | ok rs =>
      Forall (fun p => regexp_Compile env p = None) ps /\
      rs = map MustCompile ps
  | fail _ => Exists (bad_pattern env) ps
  end.
Proof. exact (compileRegexps_from_spec ps []). Qed.

Lemma splitShell_from_spec (cs : list string) : forall data,
  match splitShell_from env cs data with
  | ok ds =>
      Forall (fun c => ~ bad_command env c) cs /\
      exists new, ds = data ++ new /\
        Forall2 (fun c a => shell_Split env c = ok a) cs new
  | fail _ => Exists (bad_command env) cs
  end.
Proof.
  induction cs as [|c cs IH]; intros data; simpl.
  - split; [constructor|]. exists []. split; [now rewrite app_nil_r | constructor].
  - destruct (shell_Split env c) as [a|e] eqn:Hc.
    + destruct (len a <? 1) eqn:Hl.
      * left. unfold bad_command. rewrite Hc. now apply Z.ltb_lt.
      * specialize (IH (data ++ [a])).
        destruct (splitShell_from env cs (data ++ [a])).
        -- destruct IH as [Hall (new & -> & Hnew)]. split.
           ++ constructor; [|exact Hall]. unfold bad_command. rewrite Hc.
              apply Z.ltb_ge in Hl. lia.
           ++ exists (a :: new). split; [now rewrite <- app_assoc|].
              now constructor.
        -- now right.
    + left. unfold bad_command. now rewrite Hc.
Qed.

Lemma Exists_Forall_not {A : Type} (P : A -> Prop) (l : list A) :
  Exists P l -> Forall (fun x => ~ P x) l -> False.
Proof.
  induction 1 as [x l Hx | x l _ IH]; intros Hall; inversion Hall; auto.
Qed.

End ValidationFacts.

Lemma Forall_compiles_not_bad (env : Env) (ps : list string) :
  Forall (fun p => regexp_Compile env p = None) ps ->
  Exists (bad_pattern env) ps -> False.
Proof.
  intros Hall Hex. induction Hex as [x l Hx | x l _ IH]; inversion Hall; auto.
Qed.

Lemma same_settings_refl (o : Options) : same_settings o o.
Proof. unfold same_settings. repeat split. Qed.

Lemma both_sources_iff (opts : Options) :
  negb (Range opts =? "")%string && negb (Filename opts =? "")%string = true <->
  Range opts <> "" /\ Filename opts <> "".
Proof.
  rewrite andb_true_iff, !negb_true_iff, !String.eqb_neq. reflexivity.
Qed.

(** When [valid] fails and what it stores when it does not. *)
Lemma valid_spec (env : Env) (opts : Options) :
  (snd (valid env opts) <> None <->
     (Range opts <> "" /\ Filename opts <> "") \/
     Exists (bad_pattern env) (Extract_ opts) \/
     Exists (bad_pattern env) (HidePattern opts) \/
     Exists (bad_pattern env) (ShowPattern opts) \/
     Exists (bad_command env) (ExtractPipe opts)) /\
  (snd (valid env opts) = None ->
     same_settings opts (fst (valid env opts)) /\
     extract (fst (valid env opts)) = map MustCompile (Extract_ opts) /\
     hidePattern (fst (valid env opts)) = map MustCompile (HidePattern opts) /\
     showPattern (fst (valid env opts)) = map MustCompile (ShowPattern opts) /\
     Forall2 (fun c a => shell_Split env c = ok a)
       (ExtractPipe opts) (extractPipe (fst (valid env opts)))).
Proof.
  unfold valid.
  destruct (negb (Range opts =? "")%string && negb (Filename opts =? "")%string)
    eqn:Hboth.
  { apply both_sources_iff in Hboth. simpl. split; [|discriminate].
    split; [auto | discriminate]. }
  assert (Hnb : ~ (Range opts <> "" /\ Filename opts <> "")).
  { intros H. apply both_sources_iff in H. congruence. }
  pose proof (compileRegexps_spec env (Extract_ opts)) as HE.
  destruct (compileRegexps env (Extract_ opts)) as [rs|e].
  2:{ simpl. split; [|discriminate]. split; [auto | discriminate]. }
  destruct HE as [HEall ->].
  pose proof (splitShell_from_spec env (ExtractPipe opts) []) as HP.
  change (splitShell_from env (ExtractPipe opts) [])
    with (splitShell env (ExtractPipe opts)) in HP.
  cbn [ExtractPipe HidePattern ShowPattern set_extract set_extractPipe set_hidePattern].
  destruct (splitShell env (ExtractPipe opts)) as [cs|e].
  2:{ simpl. split; [|discriminate]. split; [auto 6 | discriminate]. }
  destruct HP as [HPall (new & Hnew & HP2)]. simpl in Hnew. subst new.
  pose proof (compileRegexps_spec env (HidePattern opts)) as HH.
  cbn [ExtractPipe HidePattern ShowPattern set_extract set_extractPipe set_hidePattern].
  destruct (compileRegexps env (HidePattern opts)) as [hs|e].
  2:{ simpl. split; [|discriminate]. split; [auto 6 | discriminate]. }
  destruct HH as [HHall ->].
  pose proof (compileRegexps_spec env (ShowPattern opts)) as HS.
  cbn [ExtractPipe HidePattern ShowPattern set_extract set_extractPipe set_hidePattern].
  destruct (compileRegexps env (ShowPattern opts)) as [ss|e].
  2:{ simpl. split; [|discriminate]. split; [auto 6 | discriminate]. }
  destruct HS as [HSall ->].
  simpl. split.
  - split; [congruence|].
    intros [H | [H | [H | [H | H]]]].
    + contradiction.
    + exfalso. exact (Forall_compiles_not_bad _ _ HEall H).
    + exfalso. exact (Forall_compiles_not_bad _ _ HHall H).
    + exfalso. exact (Forall_compiles_not_bad _ _ HSall H).
    + exfalso. exact (Exists_Forall_not _ _ H HPall).
  - intros _. unfold same_settings. simpl. repeat split; assumption.
Qed.

Lemma valid_same_settings (env : Env) (opts : Options) :
  same_settings opts (fst (valid env opts)).
Proof.
  unfold valid.
  destruct (negb (Range opts =? "")%string && negb (Filename opts =? "")%string);
    [apply same_settings_refl|].
  destruct (compileRegexps env (Extract_ opts));
    [|unfold same_settings; simpl; repeat split].
  cbn [ExtractPipe HidePattern ShowPattern set_extract set_extractPipe set_hidePattern].
  destruct (splitShell env (ExtractPipe opts));
    [|unfold same_settings; simpl; repeat split].
  cbn [ExtractPipe HidePattern ShowPattern set_extract set_extractPipe set_hidePattern].
  destruct (compileRegexps env (HidePattern opts));
    [|unfold same_settings; simpl; repeat split].
  cbn [ExtractPipe HidePattern ShowPattern set_extract set_extractPipe set_hidePattern].
  destruct (compileRegexps env (ShowPattern opts));
    unfold same_settings; simpl; repeat split.
Qed.

(** C7. [valid] returns an error exactly when both a range and a file name
    are given, or a pattern of [Extract], [HidePattern] or [ShowPattern]
    does not compile, or a command of [ExtractPipe] does not split or
    splits to no argument; when it returns [nil] it has stored the
    compiled patterns and the split commands, and changed nothing else. *)
Theorem valid_error_iff (env : Env) (opts : Options) :
  (snd (valid env opts) <> None <->
     (Range opts <> "" /\ Filename opts <> "") \/
     Exists (bad_pattern env) (Extract_ opts) \/
     Exists (bad_pattern env) (HidePattern opts) \/
     Exists (bad_pattern env) (ShowPattern opts) \/
     Exists (bad_command env) (ExtractPipe opts)) /\
  (snd (valid env opts) = None ->
     same_settings opts (fst (valid env opts)) /\
     extract (fst (valid env opts)) = map MustCompile (Extract_ opts) /\
     hidePattern (fst (valid env opts)) = map MustCompile (HidePattern opts) /\
     showPattern (fst (valid env opts)) = map MustCompile (ShowPattern opts) /\
     Forall2 (fun c a => shell_Split env c = ok a)
       (ExtractPipe opts) (extractPipe (fst (valid env opts)))).
Proof.
  destruct (valid_spec env opts) as [Herr Hok]. split.
  - exact Herr.
  - intros Hnil. destruct (Hok Hnil) as (_ & He & Hh & Hs & Hp).
    split; [apply valid_same_settings|]. auto.
Qed.

(** A pattern that does not compile makes [valid] fail. *)
Example valid_rejects_bad_pattern :
  snd (valid Sample.env (set_hidePattern Sample.opts []))= None /\
  snd (valid Sample.env
         (mkOptions "1-3" "%d" "" "" "" 2 float64_zero 100000 0 0
            Sample.request 0 [] [] [] ["("] [] [] [] [] [] [] [] 5))
  = Some (ErrRegexpCompile "(" (ErrExternal "missing )")).
Proof. split; reflexivity. Qed.

(** ** Running the set-up code *)

Lemma len_app {A : Type} (l1 l2 : list A) : len (l1 ++ l2) = len l1 + len l2.
Proof. unfold len. rewrite length_app. lia. Qed.

Lemma len_pos_iff {A : Type} (l : list A) : (len l >? 0) = true <-> l <> [].
Proof.
  destruct l as [|a l]; unfold len.
  - simpl. split; [discriminate | congruence].
  - split; [discriminate|]. intros _. reflexivity.
Qed.

Lemma concat_repeat_comm {A : Type} (b : list A) (n : nat) :
  List.concat (repeat b n) ++ b = b ++ List.concat (repeat b n).
Proof.
  induction n as [|n IH]; simpl.
  - now rewrite app_nil_r.
  - now rewrite <- app_assoc, IH.
Qed.

(** The loop of [startRunners] adds, per turn, one [wg.Add(1)] and one
    goroutine, and makes no channel. *)
Lemma startRunners_loop_spec (opts : Options) (in_ out : chan) (n : nat) :
  forall w,
    startRunners_loop n opts in_ out w =
    (Ret tt,
     mkWorld (next_chan w)
       (List.concat (repeat [EvGo (GoRunnerRun (newRunner opts in_ out)); EvWgAdd] n)
        ++ log w)).
Proof.
  induction n as [|n IH]; intros w.
  - destruct w; reflexivity.
  - cbn [startRunners_loop]. unfold bind, emit, go, emit. cbn.
    rewrite IH. cbn [next_chan log].
    change (repeat ?b (S n)) with (b :: repeat b n).
    f_equal. f_equal.
    set (b := [EvGo (GoRunnerRun (newRunner opts in_ out)); EvWgAdd]).
    change (EvGo (GoRunnerRun (newRunner opts in_ out)) :: EvWgAdd :: log w)
      with (b ++ log w).
    rewrite app_assoc, concat_repeat_comm. cbn [List.concat repeat].
    now rewrite <- app_assoc.
Qed.

Lemma startRunners_spec (opts : Options) (in_ : chan) (w : World) :
  startRunners opts in_ w =
  (Ret (next_chan w),
   mkWorld (S (next_chan w))
     (EvGo (GoWaitClose (next_chan w))
      :: List.concat (repeat [EvGo (GoRunnerRun (newRunner opts in_ (next_chan w)));
                         EvWgAdd] (Z.to_nat (Threads opts)))
      ++ EvMake (next_chan w) 0 :: log w)).
Proof.
  unfold startRunners, make_chan, new_chan, bind, emit, go, emit, ret. cbn.
  rewrite startRunners_loop_spec. reflexivity.
Qed.

Lemma pick_app {A : Type} (f : Event -> option A) (l1 l2 : list Event) :
  pick f (l1 ++ l2) = pick f l1 ++ pick f l2.
Proof.
  induction l1 as [|e l1 IH]; [reflexivity|].
  simpl. destruct (f e); simpl; now rewrite IH.
Qed.

Lemma pick_turns {A : Type} (f : Event -> option A) (b : list Event) (n : nat) :
  pick f (List.concat (repeat b n)) = List.concat (repeat (pick f b) n).
Proof.
  induction n as [|n IH]; [reflexivity|]. simpl. now rewrite pick_app, IH.
Qed.

Lemma concat_repeat_nil {A : Type} (n : nat) :
  List.concat (repeat (@nil A) n) = [].
Proof. induction n as [|n IH]; [reflexivity | exact IH]. Qed.

Lemma concat_repeat_one {A : Type} (a : A) (n : nat) :
  List.concat (repeat [a] n) = repeat a n.
Proof. induction n as [|n IH]; [reflexivity|]. simpl. now rewrite IH. Qed.

(** Reading the log at the end of a path through the set-up code. *)
Ltac read_log :=
  unfold runners_of, stages_of, producers_of, recorders_of, displays_of,
    stores_of;
  cbn [World0 log next_chan fst snd pick];
  rewrite ?pick_app, ?pick_turns;
  cbn [World0 log next_chan fst snd pick app];
  rewrite ?concat_repeat_nil, ?concat_repeat_one;
  cbn [app].

Lemma CheckRedirect_nil_iff (opts : Options) (req : HttpRequest)
  (via : list HttpRequest) :
  CheckRedirect opts req via = None <-> len via <= FollowRedirect opts.
Proof.
  unfold CheckRedirect.
  destruct (len via <=? FollowRedirect opts) eqn:H.
  - apply Z.leb_le in H. tauto.
  - apply Z.leb_gt in H. split; [discriminate | lia].
Qed.

Lemma CheckRedirect_stop_iff (opts : Options) (req : HttpRequest)
  (via : list HttpRequest) :
  CheckRedirect opts req via = Some ErrUseLastResponse <->
  FollowRedirect opts < len via.
Proof.
  unfold CheckRedirect.
  destruct (len via <=? FollowRedirect opts) eqn:H.
  - apply Z.leb_le in H. split; [discriminate | lia].
  - apply Z.leb_gt in H. tauto.
Qed.

(** With the redirect check of [startRunners], the client's loop ends
    within [F + 1] requests, and never with an error. *)
Lemma do_CheckRedirect (opts : Options) (server : HttpRequest -> Http.Reply) :
  forall (fuel : nat) (req : HttpRequest) (via : list HttpRequest),
    Z.max 0 (FollowRedirect opts - len via) < Z.of_nat fuel ->
    exists reply sent,
      Http.do fuel (CheckRedirect opts) server req via = Some (reply, None, sent) /\
      len via + 1 <= len sent <= Z.max (len via + 1) (FollowRedirect opts + 1).
Proof.
  induction fuel as [|fuel IH]; intros req via Hfuel; [lia|].
  cbn [Http.do].
  assert (Hlen : len (via ++ [req]) = len via + 1) by (rewrite len_app; reflexivity).
  destruct (server req) as [loc|st].
  - destruct (CheckRedirect opts (mkHttpRequest loc) (via ++ [req])) as [e|] eqn:Hc.
    + unfold CheckRedirect in Hc.
      destruct (len (via ++ [req]) <=? FollowRedirect opts); [discriminate|].
      injection Hc as <-. eexists _, _. split; [reflexivity|]. lia.
    + apply CheckRedirect_nil_iff in Hc.
      destruct (IH (mkHttpRequest loc) (via ++ [req])) as (reply & sent & Hdo & Hs);
        [lia|].
      exists reply, sent. split; [exact Hdo | lia].
  - eexists _, _. split; [reflexivity|]. lia.
Qed.

(** C1. Every runner that [startRunners] starts carries the same redirect
    check; the check permits a redirect exactly when [len(via)] is at most
    [FollowRedirect], and otherwise returns [http.ErrUseLastResponse]; so
    the client follows at most [FollowRedirect] redirects (none when the
    limit is not positive) and then returns the last reply with a [nil]
    error. *)
Theorem CheckRedirect_follows_at_most (opts : Options) :
  (forall in_ w,
     runners_of (log (snd (startRunners opts in_ w))) =
     repeat (newRunner opts in_ (next_chan w)) (Z.to_nat (Threads opts))
     ++ runners_of (log w)) /\
  (forall in_ out req via,
     (Client_CheckRedirect (newRunner opts in_ out) req via = None <->
      len via <= FollowRedirect opts) /\
     (Client_CheckRedirect (newRunner opts in_ out) req via
        = Some ErrUseLastResponse <->
      FollowRedirect opts < len via)) /\
  (forall server req,
     exists reply sent,
       Http.do (S (Z.to_nat (FollowRedirect opts))) (CheckRedirect opts)
         server req [] = Some (reply, None, sent) /\
       0 <= Http.followed sent <= Z.max 0 (FollowRedirect opts)).
Proof.
  split; [|split].
  - intros in_ w. rewrite startRunners_spec. read_log. reflexivity.
  - intros in_ out req via. cbn [Client_CheckRedirect newRunner].
    split; [apply CheckRedirect_nil_iff | apply CheckRedirect_stop_iff].
  - intros server req.
    destruct (do_CheckRedirect opts server (S (Z.to_nat (FollowRedirect opts))) req [])
      as (reply & sent & Hdo & Hs).
    + change (len (@nil HttpRequest)) with 0. lia.
    + exists reply, sent. split; [exact Hdo|].
      unfold Http.followed. change (len (@nil HttpRequest)) with 0 in Hs. lia.
Qed.

Lemma gtb_true_not_le (z : Z) : (z >? 0) = true -> z <= 0 -> False.
Proof. intros H. apply Z.gtb_lt in H. lia. Qed.

(** C3. [setupValueFilters] always returns; it builds the skip stage, on
    the count channel and on the value channel, exactly when [Skip > 0],
    and the limit stage, on both channels after the skip stage, exactly
    when [Limit > 0]; a stage that is built reads the channel handed on so
    far and its output is handed on; with [Skip <= 0] and [Limit <= 0] the
    two channels come back as they went in and nothing is built. *)
Theorem setupValueFilters_installs (opts : Options) (valueCh countCh : chan)
  (w : World) :
  exists valueCh' countCh' w' v1 c1 skip_part limit_part,
    setupValueFilters opts valueCh countCh w = (Ret (valueCh', countCh'), w') /\
    log w' = limit_part ++ skip_part ++ log w /\
    skip_part =
      (if Skip opts >? 0
       then [EvStage (SkipSelect (Skip opts) valueCh v1);
             EvStage (SkipCount (Skip opts) countCh c1)]
       else []) /\
    limit_part =
      (if Limit opts >? 0
       then [EvStage (LimitSelect (Limit opts) v1 valueCh');
             EvStage (LimitCount (Limit opts) c1 countCh')]
       else []) /\
    existsb is_SkipCount (stages_of (limit_part ++ skip_part)) = (Skip opts >? 0) /\
    existsb is_SkipSelect (stages_of (limit_part ++ skip_part)) = (Skip opts >? 0) /\
    existsb is_LimitCount (stages_of (limit_part ++ skip_part)) = (Limit opts >? 0) /\
    existsb is_LimitSelect (stages_of (limit_part ++ skip_part)) = (Limit opts >? 0) /\
    (Skip opts <= 0 -> v1 = valueCh /\ c1 = countCh) /\
    (Limit opts <= 0 -> valueCh' = v1 /\ countCh' = c1) /\
    (Skip opts <= 0 -> Limit opts <= 0 ->
     valueCh' = valueCh /\ countCh' = countCh /\ w' = w).
Proof.
  unfold setupValueFilters, stage, bind, new_chan, emit, ret.
  pose (n := next_chan w).
  destruct (Skip opts >? 0) eqn:Hs; destruct (Limit opts >? 0) eqn:Hl; cbn.
  - exists (S (S (S n))), (S (S n)), (mkWorld (S (S (S (S n))))
      ([EvStage (LimitSelect (Limit opts) (S n) (S (S (S n))));
        EvStage (LimitCount (Limit opts) n (S (S n)))]
       ++ [EvStage (SkipSelect (Skip opts) valueCh (S n));
           EvStage (SkipCount (Skip opts) countCh n)] ++ log w)),
      (S n), n.
    do 2 eexists. repeat (split; [reflexivity|]).
    repeat split; intros; exfalso; eauto using gtb_true_not_le.
  - exists (S n), n, (mkWorld (S (S n))
      ([] ++ [EvStage (SkipSelect (Skip opts) valueCh (S n));
              EvStage (SkipCount (Skip opts) countCh n)] ++ log w)),
      (S n), n.
    do 2 eexists. repeat (split; [reflexivity|]).
    repeat split; intros; exfalso; eauto using gtb_true_not_le.
  - exists (S n), n, (mkWorld (S (S n))
      ([EvStage (LimitSelect (Limit opts) valueCh (S n));
        EvStage (LimitCount (Limit opts) countCh n)] ++ [] ++ log w)),
      valueCh, countCh.
    do 2 eexists. repeat (split; [reflexivity|]).
    repeat split; intros; exfalso; eauto using gtb_true_not_le.
  - exists valueCh, countCh, w, valueCh, countCh, [], [].
    repeat (split; [reflexivity|]).
    repeat split; destruct w; reflexivity.
Qed.

(** Against a server that always redirects, a limit of two lets the client
    send three requests, and the third reply comes back without error. *)
Example redirects_stop_at_limit :
  Http.do 3 (CheckRedirect Sample.opts_follow2) Sample.redirecting
    (mkHttpRequest "/") []
  = Some (Http.Redirect "/next", None,
          [mkHttpRequest "/"; mkHttpRequest "/next"; mkHttpRequest "/next"]) /\
  Http.do 1 (CheckRedirect Sample.opts) Sample.redirecting
    (mkHttpRequest "/") []
  = Some (Http.Redirect "/next", None, [mkHttpRequest "/"]).
Proof. split; reflexivity. Qed.

(** *** Rules for [wp] *)

Lemma wp_bind {A B : Type} (m : M A) (f : A -> M B)
  (Q : Outcome B -> World -> Prop) (w : World) :
  wp m (fun o w1 =>
          match o with
          | Ret a => wp (f a) Q w1
          | Raise e => Q (Raise e) w1
          | Panic => Q Panic w1
          end) w ->
  wp (bind m f) Q w.
Proof.
  unfold wp, bind. destruct (m w) as [[a|e|] w1]; cbn [fst snd]; auto.
Qed.

Lemma wp_ret {A : Type} (a : A) (Q : Outcome A -> World -> Prop) (w : World) :
  Q (Ret a) w -> wp (ret a) Q w.
Proof. auto. Qed.

Lemma wp_raise {A : Type} (e : error) (Q : Outcome A -> World -> Prop)
  (w : World) :
  Q (Raise e) w -> wp (raise e) Q w.
Proof. auto. Qed.

Lemma wp_emit (e : Event) (Q : Outcome unit -> World -> Prop) (w : World) :
  Q (Ret tt) (mkWorld (next_chan w) (e :: log w)) -> wp (emit e) Q w.
Proof. auto. Qed.

Lemma wp_go (g : Goroutine) (Q : Outcome unit -> World -> Prop) (w : World) :
  Q (Ret tt) (mkWorld (next_chan w) (EvGo g :: log w)) -> wp (go g) Q w.
Proof. auto. Qed.

Lemma wp_check (r : option error) (Q : Outcome unit -> World -> Prop)
  (w : World) :
  match r with
  | Some err => Q (Raise err) w
  | None => Q (Ret tt) w
  end ->
  wp (check r) Q w.
Proof. destruct r; auto. Qed.

Lemma wp_make_chan (size : Z) (Q : Outcome chan -> World -> Prop) (w : World) :
  (if size <? 0 then Q Panic w
   else Q (Ret (next_chan w))
          (mkWorld (S (next_chan w)) (EvMake (next_chan w) size :: log w))) ->
  wp (make_chan size) Q w.
Proof. unfold wp, make_chan. destruct (size <? 0); auto. Qed.

Lemma wp_stage (mk : chan -> chan -> Stage) (in_ : chan)
  (Q : Outcome chan -> World -> Prop) (w : World) :
  Q (Ret (next_chan w))
    (mkWorld (S (next_chan w)) (EvStage (mk in_ (next_chan w)) :: log w)) ->
  wp (stage mk in_) Q w.
Proof. auto. Qed.

Lemma wp_defer {A : Type} (f : Event) (body : M A)
  (Q : Outcome A -> World -> Prop) (w : World) :
  wp body (fun o w1 => Q o (mkWorld (next_chan w1) (f :: log w1))) w ->
  wp (defer f body) Q w.
Proof. unfold wp, defer. destruct (body w); auto. Qed.

Lemma wp_startRunners (opts : Options) (in_ : chan)
  (Q : Outcome chan -> World -> Prop) (w : World) :
  Q (Ret (next_chan w))
    (mkWorld (S (next_chan w))
       (EvGo (GoWaitClose (next_chan w))
        :: List.concat (repeat [EvGo (GoRunnerRun (newRunner opts in_ (next_chan w)));
                           EvWgAdd] (Z.to_nat (Threads opts)))
        ++ EvMake (next_chan w) 0 :: log w)) ->
  wp (startRunners opts in_) Q w.
Proof. unfold wp. now rewrite startRunners_spec. Qed.

(** One step through a body written with [bind]. *)
Ltac wp_step :=
  lazymatch goal with
  | |- wp (bind _ _) _ _ => apply wp_bind
  | |- wp (ret _) _ _ => apply wp_ret
  | |- wp (raise _) _ _ => apply wp_raise
  | |- wp (emit _) _ _ => apply wp_emit
  | |- wp (go _) _ _ => apply wp_go
  | |- wp (check ?r) _ _ => apply wp_check; destruct r eqn:?
  | |- wp (make_chan ?z) _ _ =>
      apply wp_make_chan;
      first [ change (z <? 0) with false; cbv iota | destruct (z <? 0) eqn:? ]
  | |- wp (stage _ _) _ _ => apply wp_stage
  | |- wp (defer _ _) _ _ => apply wp_defer
  | |- wp (startRunners _ _) _ _ => apply wp_startRunners
  | |- wp (setupProducer _ _ _ _) _ _ => unfold setupProducer
  | |- wp (setupTerminal _ _) _ _ => unfold setupTerminal
  | |- wp (setupValueFilters _ _ _) _ _ => unfold setupValueFilters
  | |- wp (limitThroughput _ _) _ _ => unfold limitThroughput
  | |- wp (setupRecorder _ _ _ _ _) _ _ => unfold setupRecorder
  | |- wp (if ?c then _ else _) _ _ => destruct c eqn:?
  | |- wp (match ?x with _ => _ end) _ _ => destruct x eqn:?
  end;
  cbv beta iota zeta;
  cbn [next_chan log fst snd set_Request_URL Range RangeFormat Filename
       Logfile Logdir Threads RequestsPerSecond BufferSize Skip Limit
       FollowRedirect HideStatusCodes HideHeaderSize HideBodySize HidePattern
       hidePattern ShowPattern showPattern ExtractPipe extractPipe
       BodyBufferSize].

Ltac wp_run := repeat wp_step.

(** All paths through [run], with the options after [valid] kept as
    [fst (valid env opts)]. *)
Ltac run_paths env opts :=
  unfold run; rewrite (surjective_pairing (valid env opts));
  wp_run; read_log.

(** A marker is only built once [valid] has passed, and with the chain
    that [setupResponseFilters] returns. *)
Lemma run_mark_filters (env : Env) (opts : Options) (args : list string) :
  wp (run env opts args)
    (fun _ w' =>
       forall i o fs, In (Mark i o fs) (stages_of (log w')) ->
         snd (valid env opts) = None /\
         setupResponseFilters env
           (set_Request_URL (fst (valid env opts)) (hd "" args)) = ok fs)
    World0.
Proof.
  unfold run. wp_run; read_log.
  all: intros ci co fs Hin; cbn in Hin.
  all: try contradiction.
  all: repeat (destruct Hin as [Hin|Hin]; [try discriminate Hin|]);
       try contradiction.
  all: injection Hin as <- <- <-; split; reflexivity.
Qed.

Lemma setupResponseFilters_ok (env : Env) (opts : Options) :
  match setupResponseFilters env opts with
  | ok fs =>
      fs = chain_in_order (HideStatusCodes opts) (HideHeaderSize opts)
             (HideBodySize opts) (hidePattern opts) (showPattern opts)
  | fail err =>
      (len (HideHeaderSize opts) >? 0) || (len (HideBodySize opts) >? 0) = true /\
      response_NewFilterSize env (HideHeaderSize opts) (HideBodySize opts)
        = Some err
  end.
Proof.
  unfold setupResponseFilters, chain_in_order.
  destruct ((len (HideHeaderSize opts) >? 0) || (len (HideBodySize opts) >? 0)).
  - destruct (response_NewFilterSize env (HideHeaderSize opts) (HideBodySize opts));
      [now split|].
    destruct (len (hidePattern opts) >? 0), (len (showPattern opts) >? 0);
      reflexivity.
  - destruct (len (hidePattern opts) >? 0), (len (showPattern opts) >? 0);
      reflexivity.
Qed.

Lemma chain_in_order_sorted (codes : list Z) (hsize bsize : list string)
  (hide show : list Regexp) :
  StronglySorted lt (map rank (chain_in_order codes hsize bsize hide show)).
Proof.
  unfold chain_in_order.
  destruct ((len hsize >? 0) || (len bsize >? 0)), (len hide >? 0),
    (len show >? 0); cbn; repeat constructor.
Qed.

Lemma len_map {A B : Type} (f : A -> B) (l : list A) : len (map f l) = len l.
Proof. unfold len. now rewrite length_map. Qed.

(** The chain that the marker of a run gets, by the options as given. *)
Lemma run_mark_chain (env : Env) (opts : Options) (args : list string)
  (i o : chan) (fs : list Filter) :
  In (Mark i o fs) (stages_of (log (snd (run env opts args World0)))) ->
  fs = chain_in_order (HideStatusCodes opts) (HideHeaderSize opts)
         (HideBodySize opts) (map MustCompile (HidePattern opts))
         (map MustCompile (ShowPattern opts)).
Proof.
  intros Hin. destruct (run_mark_filters env opts args i o fs Hin) as [Hv Hfs].
  destruct (valid_spec env opts) as [_ Hok].
  destruct (Hok Hv) as (_ & _ & Hh & Hs & _).
  pose proof (valid_same_settings env opts) as Hsame.
  unfold same_settings in Hsame.
  destruct Hsame as (_ & _ & _ & _ & _ & _ & _ & _ & _ & _ & _ & _ & Hc & Hhs
                     & Hbs & _).
  pose proof (setupResponseFilters_ok env
                (set_Request_URL (fst (valid env opts)) (hd "" args))) as Hch.
  rewrite Hfs in Hch. cbn [HideStatusCodes HideHeaderSize HideBodySize
    hidePattern showPattern set_Request_URL] in Hch.
  now rewrite Hc, Hhs, Hbs, Hh, Hs in Hch.
Qed.


Lemma setupResponseFilters_passes (env : Env) (o : Options) :
  filters_ok env o -> exists fs, setupResponseFilters env o = ok fs.
Proof.
  intros Hok. pose proof (setupResponseFilters_ok env o) as H.
  destruct (setupResponseFilters env o) as [fs|e]; [now exists fs|].
  destruct H as [Hs He]. apply orb_true_iff in Hs. rewrite !len_pos_iff in Hs.
  destruct Hok as [[Hh Hb]|Hn]; [tauto | congruence].
Qed.

Lemma Mark_apply_spec {R : Type} (rejects : Filter -> R -> bool)
  (filters : list Filter) (r : R) :
  forall applied hidden,
    Mark_apply rejects filters r applied hidden
    = (applied ++ filters, hidden || existsb (fun f => rejects f r) filters).
Proof.
  induction filters as [|f rest IH]; intros applied hidden; cbn [Mark_apply existsb].
  - now rewrite app_nil_r, orb_false_r.
  - rewrite IH, <- app_assoc, orb_assoc. reflexivity.
Qed.

(** C5. [setupResponseFilters] returns a chain unless a size spec is
    configured that [response.NewFilterSize] turns down, and then it
    returns that error.  The chain is, in this order, the status-code
    filter, the size filter, the reject-pattern filter and the
    accept-pattern filter, a filter that is not configured left out; with
    all four configured it is exactly these four.  The marker of a run is
    built with this chain, and a marker that applies its chain front to
    back applies the rules in this order to every record. *)
Theorem setupResponseFilters_order (env : Env) (opts : Options) :
  match setupResponseFilters env opts with
  | ok fs =>
      fs = chain_in_order (HideStatusCodes opts) (HideHeaderSize opts)
             (HideBodySize opts) (hidePattern opts) (showPattern opts) /\
      StronglySorted lt (map rank fs) /\
      ((HideHeaderSize opts <> [] \/ HideBodySize opts <> []) ->
       hidePattern opts <> [] -> showPattern opts <> [] ->
       fs = [FilterStatusCode (HideStatusCodes opts);
             FilterSize (HideHeaderSize opts) (HideBodySize opts);
             FilterRejectPattern (hidePattern opts);
             FilterAcceptPattern (showPattern opts)])
  | fail e =>
      (HideHeaderSize opts <> [] \/ HideBodySize opts <> []) /\
      response_NewFilterSize env (HideHeaderSize opts) (HideBodySize opts)
        = Some e
  end /\
  (filters_ok env opts -> exists fs, setupResponseFilters env opts = ok fs) /\
  (forall args i o fs,
     In (Mark i o fs) (stages_of (log (snd (run env opts args World0)))) ->
     fs = chain_in_order (HideStatusCodes opts) (HideHeaderSize opts)
            (HideBodySize opts) (map MustCompile (HidePattern opts))
            (map MustCompile (ShowPattern opts)) /\
     StronglySorted lt (map rank fs) /\
     forall (R : Type) (rejects : Filter -> R -> bool) (r : R),
       fst (Mark_record rejects fs r) = fs /\
       StronglySorted lt (map rank (fst (Mark_record rejects fs r))) /\
       snd (Mark_record rejects fs r) = existsb (fun f => rejects f r) fs).
Proof.
  split; [|split].
  - pose proof (setupResponseFilters_ok env opts) as H.
    destruct (setupResponseFilters env opts) as [fs|e].
    + subst fs. split; [reflexivity|]. split; [apply chain_in_order_sorted|].
      intros Hsize Hh Hs. unfold chain_in_order.
      apply len_pos_iff in Hh, Hs. rewrite Hh, Hs.
      assert (Hb : (len (HideHeaderSize opts) >? 0)
                   || (len (HideBodySize opts) >? 0) = true).
      { apply orb_true_iff. destruct Hsize as [H|H]; apply len_pos_iff in H; auto. }
      rewrite Hb. reflexivity.
    + destruct H as [Hs He]. apply orb_true_iff in Hs.
      rewrite !len_pos_iff in Hs. auto.
  - apply setupResponseFilters_passes.
  - intros args i o fs Hin. apply run_mark_chain in Hin. subst fs.
    split; [reflexivity|]. split; [apply chain_in_order_sorted|].
    intros R rejects r. unfold Mark_record. rewrite Mark_apply_spec.
    cbn [fst snd app orb]. repeat split. apply chain_in_order_sorted.
Qed.

Lemma chain_in_order_members (codes : list Z) (hsize bsize : list string)
  (hide show : list Regexp) :
  let fs := chain_in_order codes hsize bsize hide show in
  hd_error fs = Some (FilterStatusCode codes) /\
  (existsb is_FilterSize fs = true <-> hsize <> [] \/ bsize <> []) /\
  (existsb is_FilterRejectPattern fs = true <-> hide <> []) /\
  (existsb is_FilterAcceptPattern fs = true <-> show <> []).
Proof.
  cbv zeta. unfold chain_in_order.
  rewrite <- !len_pos_iff, <- orb_true_iff.
  destruct ((len hsize >? 0) || (len bsize >? 0)), (len hide >? 0),
    (len show >? 0); cbn; intuition congruence.
Qed.

Lemma map_nil_iff {A B : Type} (f : A -> B) (l : list A) :
  map f l <> [] <-> l <> [].
Proof. destruct l; simpl; split; congruence. Qed.

(** C10. In the chain of [setupResponseFilters] the status-code filter is
    always there, and first, whatever the list of status codes; the size
    filter is there exactly when a header-size or a body-size spec is
    configured; the reject-pattern and accept-pattern filters are there
    exactly when a pattern of their kind is configured.  The same holds
    of the chain the marker of a run gets, by the patterns as given. *)
Theorem status_filter_always_present (env : Env) (opts : Options) :
  match setupResponseFilters env opts with
  | ok fs =>
      hd_error fs = Some (FilterStatusCode (HideStatusCodes opts)) /\
      (existsb is_FilterSize fs = true <->
       HideHeaderSize opts <> [] \/ HideBodySize opts <> []) /\
      (existsb is_FilterRejectPattern fs = true <-> hidePattern opts <> []) /\
      (existsb is_FilterAcceptPattern fs = true <-> showPattern opts <> [])
  | fail _ => HideHeaderSize opts <> [] \/ HideBodySize opts <> []
  end /\
  (forall args i o fs,
     In (Mark i o fs) (stages_of (log (snd (run env opts args World0)))) ->
     hd_error fs = Some (FilterStatusCode (HideStatusCodes opts)) /\
     (existsb is_FilterSize fs = true <->
      HideHeaderSize opts <> [] \/ HideBodySize opts <> []) /\
     (existsb is_FilterRejectPattern fs = true <-> HidePattern opts <> []) /\
     (existsb is_FilterAcceptPattern fs = true <-> ShowPattern opts <> [])).
Proof.
  split.
  - pose proof (setupResponseFilters_ok env opts) as H.
    destruct (setupResponseFilters env opts) as [fs|e].
    + subst fs. apply chain_in_order_members.
    + destruct H as [H _]. apply orb_true_iff in H.
      rewrite !len_pos_iff in H. exact H.
  - intros args i o fs Hin. apply run_mark_chain in Hin. subst fs.
    pose proof (chain_in_order_members (HideStatusCodes opts)
                  (HideHeaderSize opts) (HideBodySize opts)
                  (map MustCompile (HidePattern opts))
                  (map MustCompile (ShowPattern opts))) as H.
    cbv zeta in H. rewrite !map_nil_iff in H. exact H.
Qed.

(** With no filter option set the chain is the status-code filter alone;
    with all set it has the four filters. *)
Example setupResponseFilters_samples :
  setupResponseFilters Sample.env Sample.opts = ok [FilterStatusCode []] /\
  setupResponseFilters Sample.env Sample.opts_filters =
    ok [FilterStatusCode [404]; FilterSize ["100-200"] [];
        FilterRejectPattern [MustCompile "a"];
        FilterAcceptPattern [MustCompile "b"]] /\
  stages_of (log (snd (run Sample.env Sample.opts_filters Sample.args World0)))
  = [Mark 2%nat 3%nat
       [FilterStatusCode [404]; FilterSize ["100-200"] [];
        FilterRejectPattern [MustCompile "a"];
        FilterAcceptPattern [MustCompile "b"]]].
Proof. repeat split. Qed.

Lemma In_repeat_app_nil {A : Type} (a x : A) (n : nat) :
  In a (repeat x n ++ []) -> a = x.
Proof. rewrite app_nil_r. intros H. now apply repeat_spec in H. Qed.

(** Without a rate limit, a run builds no limiter, and its runners read
    the channel that the skip and limit stages hand on. *)
Lemma run_value_path (env : Env) (opts : Options) (args : list string) :
  wp (run env opts args)
    (fun _ w' =>
       float64_gt0 (RequestsPerSecond (fst (valid env opts))) = false ->
       existsb is_RateLimit (stages_of (log w')) = false /\
       forall r, In r (runners_of (log w')) ->
         exists vch cch,
           producers_of (log w') = [(vch, cch)] /\
           if Limit (fst (valid env opts)) >? 0
           then exists i,
                  In (LimitSelect (Limit (fst (valid env opts))) i (Runner_in r))
                    (stages_of (log w'))
           else if Skip (fst (valid env opts)) >? 0
           then exists i,
                  In (SkipSelect (Skip (fst (valid env opts))) i (Runner_in r))
                    (stages_of (log w'))
           else Runner_in r = vch)
    World0.
Proof.
  run_paths env opts.
  all: intros Hrate; try congruence.
  all: split; [reflexivity|].
  all: intros r Hin; try contradiction.
  all: apply In_repeat_app_nil in Hin; subst r; cbn [Runner_in newRunner].
  all: eexists _, _; (split; [reflexivity|]).
  all: try reflexivity.
  all: eexists; simpl; eauto 8.
Qed.

(** A rate that is at most zero is not above zero (nor is NaN, which is
    neither). *)
Lemma float64_le0_not_gt0 (x : float64) :
  float64_le0 x = true -> float64_gt0 x = false.
Proof.
  unfold float64_le0, float64_gt0, float64_zero, SFleb, SFltb.
  destruct x as [s|s| |s m e]; try destruct s; cbn; congruence.
Qed.

Lemma limitThroughput_id (opts : Options) (valueCh : chan) (w : World) :
  float64_gt0 (RequestsPerSecond opts) = false ->
  limitThroughput opts valueCh w = (Ret valueCh, w).
Proof. unfold limitThroughput. now intros ->. Qed.

(** C4. With [RequestsPerSecond <= 0] the rate-limiting step of [run]
    hands back the channel it is given and builds nothing; so a run has
    no limiter stage, and every runner reads the channel that the skip
    and limit stages hand on: the output of the limit stage if there is
    one, else of the skip stage if there is one, else the producer's
    value channel. *)
Theorem no_limiter_when_rate_not_positive (env : Env) (opts : Options)
  (Hrate : float64_le0 (RequestsPerSecond opts) = true) :
  (forall valueCh w, limitThroughput opts valueCh w = (Ret valueCh, w)) /\
  (forall args,
     existsb is_RateLimit
       (stages_of (log (snd (run env opts args World0)))) = false /\
     forall r, In r (runners_of (log (snd (run env opts args World0)))) ->
       exists vch cch,
         producers_of (log (snd (run env opts args World0))) = [(vch, cch)] /\
         if Limit opts >? 0
         then exists i,
                In (LimitSelect (Limit opts) i (Runner_in r))
                  (stages_of (log (snd (run env opts args World0))))
         else if Skip opts >? 0
         then exists i,
                In (SkipSelect (Skip opts) i (Runner_in r))
                  (stages_of (log (snd (run env opts args World0))))
         else Runner_in r = vch).
Proof.
  apply float64_le0_not_gt0 in Hrate. split.
  - intros valueCh w. now apply limitThroughput_id.
  - intros args.
    pose proof (run_value_path env opts args) as H. unfold wp in H.
    pose proof (valid_same_settings env opts) as Hsame.
    unfold same_settings in Hsame.
    destruct Hsame as (_ & _ & _ & _ & _ & _ & Hr & _ & Hs & Hl & _).
    rewrite Hr, Hs, Hl in H. exact (H Hrate).
Qed.

(** A run of the sample options: no limiter, two runners on channel 0. *)
Lemma no_limiter_when_rate_not_positive_witness :
  float64_le0 (RequestsPerSecond Sample.opts) = true /\
  existsb is_RateLimit
    (stages_of (log (snd (run Sample.env Sample.opts Sample.args World0))))
  = false /\
  map Runner_in
    (runners_of (log (snd (run Sample.env Sample.opts Sample.args World0))))
  = [0%nat; 0%nat] /\
  producers_of (log (snd (run Sample.env Sample.opts Sample.args World0)))
  = [(0%nat, 1%nat)].
Proof.
  split; [reflexivity|].
  destruct (no_limiter_when_rate_not_positive Sample.env Sample.opts
              eq_refl) as [_ H].
  split; [exact (proj1 (H Sample.args))|].
  split; reflexivity.
Defined.


Lemma logfilePath_ext (env : Env) (o1 o2 : Options) (u : string) :
  Logdir o1 = Logdir o2 -> Logfile o1 = Logfile o2 ->
  logfilePath env o1 u = logfilePath env o2 u.
Proof. unfold logfilePath. now intros -> ->. Qed.





(** How a run can end: with an error before any runner is started; with
    the error of [recorder.New], all runners started; or in the reporter. *)
Lemma run_error_path (env : Env) (opts : Options) (args : list string) :
  wp (run env opts args)
    (fun o w' =>
       match o with
       | Raise e =>
           runners_of (log w') = [] \/
           (exists store,
              stores_of (log w') = [store] /\
              recorder_New env store = Some e /\
              recorders_of (log w') = [] /\
              displays_of (log w') = [] /\
              List.length (runners_of (log w'))
                = Z.to_nat (Threads (fst (valid env opts)))) \/
           (displays_of (log w') <> [] /\ reporter_Display env = Some e)
       | Panic => runners_of (log w') = []
       | Ret _ => displays_of (log w') <> [] /\ reporter_Display env = None
       end /\
       (runners_of (log w') = [] \/
        exists i o,
          runners_of (log w')
          = repeat (newRunner
                      (set_Request_URL (fst (valid env opts)) (hd "" args)) i o)
              (Z.to_nat (Threads (fst (valid env opts))))))
    World0.
Proof.
  run_paths env opts.
  all: split;
    [ first
        [ reflexivity
        | left; reflexivity
        | split; [discriminate | reflexivity]
        | right; right; split; [discriminate | reflexivity]
        | right; left; eexists; split; [reflexivity|];
          split; [eassumption|]; split; [reflexivity|]; split; [reflexivity|];
          rewrite app_nil_r; apply repeat_length ]
    | first [ left; reflexivity | right; eexists _, _; apply app_nil_r ] ].
Qed.

(** A run starts [Threads] runners, all alike, or none. *)
Lemma run_runners (env : Env) (opts : Options) (args : list string) :
  runners_of (log (snd (run env opts args World0))) = [] \/
  exists i o,
    runners_of (log (snd (run env opts args World0)))
    = repeat (newRunner (set_Request_URL (fst (valid env opts)) (hd "" args)) i o)
        (Z.to_nat (Threads opts)).
Proof.
  pose proof (run_error_path env opts args) as H. unfold wp in H.
  pose proof (valid_same_settings env opts) as Hsame.
  unfold same_settings in Hsame.
  destruct Hsame as (_ & _ & _ & _ & _ & Ht & _).
  rewrite Ht in H. exact (proj2 H).
Qed.

















(** With no source of values, and with a range that does not scan, the run
    fails once the terminal is set up, and before any runner is started. *)
Example run_producer_failures :
  fst (run Sample.env Sample.opts_no_source Sample.args World0)
    = Raise ErrNothingToDo /\
  fst (run Sample.env Sample.opts_bad_range Sample.args World0)
    = Raise ErrRangeFormat /\
  trace (snd (run Sample.env Sample.opts_bad_range Sample.args World0))
    = [EvLogSetOutput; EvGo (GoTermRun Termstatus);
       EvMake 0%nat 100000; EvMake 1%nat 1; EvCancel].
Proof. repeat split. Qed.


(** ** The pool of runners *)

Lemma active_app (l1 l2 : list Pool.RunnerPc) :
  Pool.active (l1 ++ l2) = Pool.active l1 + Pool.active l2.
Proof. induction l1 as [|r l1 IH]; simpl; [reflexivity | lia]. Qed.

Lemma active_nonneg (l : list Pool.RunnerPc) : 0 <= Pool.active l.
Proof. induction l as [|r l IH]; simpl; [lia | destruct (Pool.running r); lia]. Qed.

Lemma active_zero (l : list Pool.RunnerPc) :
  Pool.active l = 0 -> Forall (fun r => Pool.running r = false) l.
Proof.
  induction l as [|r l IH]; simpl; intros H; [constructor|].
  pose proof (active_nonneg l).
  destruct (Pool.running r) eqn:Hr; [lia|]. constructor; [exact Hr | apply IH; lia].
Qed.

Lemma active_mid (l1 l2 : list Pool.RunnerPc) (r : Pool.RunnerPc) :
  Pool.active (l1 ++ r :: l2)
  = Pool.active l1 + (if Pool.running r then 1 else 0) + Pool.active l2.
Proof. rewrite active_app. simpl. lia. Qed.

Lemma length_mid {A : Type} (l1 l2 : list A) (a b : A) :
  List.length (l1 ++ a :: l2) = List.length (l1 ++ b :: l2).
Proof. rewrite !length_app. reflexivity. Qed.

Lemma inv_init (T : Z) : Pool.inv T Pool.init.
Proof. unfold Pool.inv, Pool.init; simpl. repeat split; lia. Qed.

Ltac pool_arith :=
  repeat match goal with
         | H : _ /\ _ |- _ => destruct H
         | H : _ \/ _ |- _ => destruct H
         end;
  subst;
  cbn [Pool.running] in *;
  repeat split;
  try discriminate; try congruence; try lia.

Lemma inv_step (T : Z) (s s' : Pool.State) :
  Pool.inv T s -> Pool.step T s s' -> Pool.inv T s'.
Proof.
  intros Hinv Hstep.
  destruct Hstep; unfold Pool.inv in *; cbn [Pool.main Pool.wg Pool.runners
    Pool.closer Pool.out_closed Pool.consumed Pool.out_sent Pool.panicked] in *.
  - (* wg.Add(1) *)
    destruct c; pool_arith.
  - (* go: a runner *)
    rewrite active_app, length_app in *. cbn [Pool.active Pool.running List.length].
    destruct c; pool_arith.
  - (* the loop ends *)
    destruct c; pool_arith.
  - (* go: the closing goroutine *)
    pool_arith.
  - (* a runner receives a value *)
    rewrite !active_mid in *. rewrite (length_mid rs1 rs2 Pool.Busy Pool.Idle).
    destruct mn, c; pool_arith.
  - (* a runner sends a record *)
    rewrite !active_mid in *. rewrite (length_mid rs1 rs2 Pool.Idle Pool.Busy).
    destruct mn, c; pool_arith.
  - (* a send on the closed channel: never *)
    exfalso. rewrite !active_mid in *.
    pose proof (active_nonneg rs1). pose proof (active_nonneg rs2).
    destruct c; pool_arith.
  - (* Run returns *)
    rewrite !active_mid in *. rewrite (length_mid rs1 rs2 Pool.AtDone r).
    destruct mn, c; pool_arith.
  - (* wg.Done() *)
    rewrite !active_mid in *. rewrite (length_mid rs1 rs2 Pool.Finished Pool.AtDone).
    pose proof (active_nonneg rs1). pose proof (active_nonneg rs2).
    destruct mn, c; pool_arith.
  - (* wg.Wait() returns *)
    destruct mn; pool_arith.
  - (* close(out) *)
    destruct mn; pool_arith.
Qed.

Lemma inv_reachable (T : Z) (s : Pool.State) :
  Pool.reachable T s -> Pool.inv T s.
Proof.
  induction 1 as [|s s' _ IH Hstep]; [apply inv_init | exact (inv_step T s s' IH Hstep)].
Qed.

(** C8. In every state that the goroutines of [startRunners] can reach:
    if the closing goroutine is past [wg.Wait()], or the output channel is
    closed, then the loop is over, all [Threads] runner goroutines were
    started and every one of them has returned and called [wg.Done()];
    so while a runner is still running the channel is open, and no runner
    ever sends on a closed channel. *)
Theorem out_closed_after_all_runners (T : Z) (s : Pool.State)
  (Hreach : Pool.reachable T s) :
  (Pool.closer s = Pool.AtClose \/ Pool.out_closed s = true ->
   Pool.main s = Pool.Returned /\
   List.length (Pool.runners s) = Z.to_nat T /\
   Forall (fun r => Pool.running r = false) (Pool.runners s) /\
   Pool.wg s = 0) /\
  (forall r, In r (Pool.runners s) -> Pool.running r = true ->
   Pool.out_closed s = false /\ Pool.closer s <> Pool.AtClose /\
   Pool.closer s <> Pool.Closed) /\
  Pool.panicked s = false.
Proof.
  apply inv_reachable in Hreach. unfold Pool.inv in Hreach.
  destruct Hreach as (Hm & Hc & Hp).
  assert (Hpast : Pool.closer s = Pool.AtClose \/ Pool.out_closed s = true ->
                  Pool.active (Pool.runners s) = 0 /\
                  Pool.closer s <> Pool.NotStarted).
  { intros H. remember (Pool.closer s) as c eqn:E.
    destruct c; cbv iota in Hc.
    - destruct H; congruence.
    - destruct H; congruence.
    - destruct Hc. split; [assumption | discriminate].
    - destruct Hc. split; [assumption | discriminate]. }
  split; [|split; [|exact Hp]].
  - intros H. destruct (Hpast H) as [Hact Hns].
    destruct (Pool.main s); destruct Hm as (? & ? & ?); try tauto.
    repeat split; try assumption; try congruence.
    now apply active_zero.
  - intros r Hin Hrun.
    assert (Hact : Pool.active (Pool.runners s) <> 0).
    { intros Hz. apply active_zero in Hz.
      rewrite Forall_forall in Hz. specialize (Hz r Hin). congruence. }
    remember (Pool.closer s) as c eqn:E.
    destruct c; cbv iota in Hc.
    + repeat split; congruence.
    + repeat split; congruence.
    + destruct Hc. contradiction.
    + destruct Hc. contradiction.
Qed.

Lemma closed_one_reachable : Pool.reachable 1 Pool.closed_one.
Proof.
  unfold Pool.closed_one.
  eapply Pool.reach_step; [|apply Pool.step_close].
  eapply Pool.reach_step; [|apply Pool.step_wait].
  eapply Pool.reach_step;
    [|exact (Pool.step_done 1 Pool.Returned 1 [] [] Pool.AtWait false 0 0 false)].
  eapply Pool.reach_step;
    [|exact (Pool.step_run_returns 1 Pool.Returned 1 [] Pool.Idle [] Pool.AtWait
               false 0 0 false (or_introl eq_refl))].
  eapply Pool.reach_step; [|apply Pool.step_go_closer].
  eapply Pool.reach_step;
    [|exact (Pool.step_loop_exit 1 1 1 [Pool.Idle] Pool.NotStarted false 0 0 false
               (Z.lt_irrefl 1))].
  eapply Pool.reach_step;
    [|exact (Pool.step_go 1 0 1 [] Pool.NotStarted false 0 0 false)].
  eapply Pool.reach_step;
    [|exact (Pool.step_add 1 0 0 [] Pool.NotStarted false 0 0 false eq_refl)].
  apply Pool.reach_init.
Qed.

(** One thread: the channel is closed, and the one runner has returned. *)
Lemma out_closed_after_all_runners_witness :
  Pool.out_closed Pool.closed_one = true /\
  List.length (Pool.runners Pool.closed_one) = 1%nat /\
  Forall (fun r => Pool.running r = false) (Pool.runners Pool.closed_one).
Proof.
  split; [reflexivity|].
  destruct (out_closed_after_all_runners 1 Pool.closed_one
              closed_one_reachable) as [H _].
  destruct (H (or_intror eq_refl)) as (_ & Hlen & Hall & _).
  split; assumption.
Defined.

Lemma mid_not_nil {A : Type} (l1 l2 : list A) (a : A) : l1 ++ a :: l2 = [] -> False.
Proof. destruct l1; discriminate. Qed.

(** Without threads the pool walks through five states and no other. *)
Lemma idle_run_closed (T : Z) (s : Pool.State) :
  T <= 0 -> Pool.reachable T s -> In s Pool.idle_run.
Proof.
  intros HT Hreach.
  induction Hreach as [|s s' _ IH Hstep]; [now left|].
  unfold Pool.idle_run, Pool.init in *. cbn [In] in IH.
  destruct IH as [<-|[<-|[<-|[<-|[<-|[]]]]]];
    inversion Hstep; subst;
    try (exfalso; eapply mid_not_nil; eassumption);
    try lia;
    cbn [In]; auto 6.
Qed.

Lemma idle_run_reachable (T : Z) (s : Pool.State) :
  T <= 0 -> In s Pool.idle_run -> Pool.reachable T s.
Proof.
  intros HT.
  assert (H1 : Pool.reachable T Pool.init) by constructor.
  assert (H2 : Pool.reachable T
                 (Pool.mkState Pool.AtGoCloser 0 [] Pool.NotStarted false 0 0 false)).
  { eapply Pool.reach_step; [exact H1|]. apply Pool.step_loop_exit. lia. }
  assert (H3 : Pool.reachable T
                 (Pool.mkState Pool.Returned 0 [] Pool.AtWait false 0 0 false)).
  { eapply Pool.reach_step; [exact H2|]. apply Pool.step_go_closer. }
  assert (H4 : Pool.reachable T
                 (Pool.mkState Pool.Returned 0 [] Pool.AtClose false 0 0 false)).
  { eapply Pool.reach_step; [exact H3|]. apply Pool.step_wait. }
  assert (H5 : Pool.reachable T
                 (Pool.mkState Pool.Returned 0 [] Pool.Closed true 0 0 false)).
  { eapply Pool.reach_step; [exact H4|]. apply Pool.step_close. }
  unfold Pool.idle_run. cbn [In].
  intros [<-|[<-|[<-|[<-|[<-|[]]]]]]; assumption.
Qed.

Lemma idle_run_progress (T : Z) (s : Pool.State) :
  T <= 0 -> In s Pool.idle_run ->
  Pool.out_closed s = true \/ exists s', Pool.step T s s'.
Proof.
  intros HT. unfold Pool.idle_run, Pool.init. cbn [In].
  intros [<-|[<-|[<-|[<-|[<-|[]]]]]].
  - right. eexists. apply Pool.step_loop_exit. lia.
  - right. eexists. apply Pool.step_go_closer.
  - right. eexists. apply Pool.step_wait.
  - right. eexists. apply Pool.step_close.
  - now left.
Qed.

(** C9. With [Threads <= 0], [startRunners] makes the output channel and
    starts the closing goroutine and nothing else; no run has a runner;
    the pool has no runner in any state it can reach, no value is ever
    received and no record ever sent, [wg.Wait()] never blocks (the
    counter is always zero), every state but the last can step, and the
    last, with the channel closed, is reached. *)
Theorem no_workers_when_threads_not_positive (opts : Options)
  (HT : Threads opts <= 0) :
  (forall in_ w,
     startRunners opts in_ w =
     (Ret (next_chan w),
      mkWorld (S (next_chan w))
        (EvGo (GoWaitClose (next_chan w)) :: EvMake (next_chan w) 0 :: log w))) /\
  (forall env args, runners_of (log (snd (run env opts args World0))) = []) /\
  (forall s, Pool.reachable (Threads opts) s ->
     Pool.runners s = [] /\ Pool.consumed s = 0%nat /\ Pool.out_sent s = 0%nat /\
     Pool.wg s = 0 /\ Pool.panicked s = false /\
     (Pool.out_closed s = true \/ exists s', Pool.step (Threads opts) s s')) /\
  Pool.reachable (Threads opts)
    (Pool.mkState Pool.Returned 0 [] Pool.Closed true 0 0 false).
Proof.
  assert (Hn : Z.to_nat (Threads opts) = 0%nat) by lia.
  split; [|split; [|split]].
  - intros in_ w. rewrite startRunners_spec, Hn. reflexivity.
  - intros env args. destruct (run_runners env opts args) as [H|(i & o & H)];
      [exact H|]. now rewrite Hn in H.
  - intros s Hreach.
    pose proof (idle_run_closed _ s HT Hreach) as Hin.
    pose proof (idle_run_progress _ s HT Hin) as Hprog.
    unfold Pool.idle_run, Pool.init in Hin. cbn [In] in Hin.
    destruct Hin as [<-|[<-|[<-|[<-|[<-|[]]]]]]; repeat split; exact Hprog.
  - apply idle_run_reachable; [exact HT|].
    unfold Pool.idle_run. cbn [In]. auto 6.
Qed.

(** [--threads 0]: the pool goes straight to the closed channel. *)
Lemma no_workers_when_threads_not_positive_witness :
  Threads Sample.opts_no_threads <= 0 /\
  runners_of (log (snd (run Sample.env (Sample.opts_no_threads) Sample.args World0)))
    = [] /\
  Pool.reachable 0 (Pool.mkState Pool.Returned 0 [] Pool.Closed true 0 0 false).
Proof.
  assert (H : Threads Sample.opts_no_threads <= 0) by (cbn; lia).
  split; [exact H|].
  destruct (no_workers_when_threads_not_positive (Sample.opts_no_threads) H)
    as (_ & Hrun & _ & Hclosed).
  split; [apply Hrun | exact Hclosed].
Defined.

(** ** More on validation *)

Lemma compileRegexps_from_first_failure (env : Env) (ps : list string) :
  forall acc e,
    compileRegexps_from env ps acc = fail e ->
    exists pre pat post cause,
      ps = pre ++ pat :: post /\
      Forall (fun p => regexp_Compile env p = None) pre /\
      regexp_Compile env pat = Some cause /\
      e = ErrRegexpCompile pat cause.
Proof.
  induction ps as [|p ps IH]; intros acc e; simpl; [discriminate|].
  destruct (regexp_Compile env p) as [c|] eqn:Hp.
  - intros [= <-]. exists [], p, ps, c. repeat split; [constructor | exact Hp].
  - intros H. destruct (IH _ _ H) as (pre & pat & post & cause & -> & Hall & Hc & ->).
    exists (p :: pre), pat, post, cause. repeat split; [now constructor | exact Hc].
Qed.

(** X1. [compileRegexps] compiles the patterns in order and stops at the
    first that does not compile: the error names that pattern and carries
    the compiler's error, and every pattern before it compiles; when all
    compile the result has one compiled pattern per input, in order. *)
Theorem compileRegexps_first_failure (env : Env) (ps : list string) :
  match compileRegexps env ps with
  | ok rs =>
      rs = map MustCompile ps /\ len rs = len ps /\
      Forall (fun p => regexp_Compile env p = None) ps
  | fail e =>
      exists pre pat post cause,
        ps = pre ++ pat :: post /\
        Forall (fun p => regexp_Compile env p = None) pre /\
        regexp_Compile env pat = Some cause /\
        e = ErrRegexpCompile pat cause
  end.
Proof.
  pose proof (compileRegexps_spec env ps) as Hs.
  destruct (compileRegexps env ps) as [rs|e] eqn:Hc.
  - destruct Hs as [Hall ->]. repeat split; [apply len_map | exact Hall].
  - exact (compileRegexps_from_first_failure env ps [] e Hc).
Qed.

Lemma splitShell_from_first_failure (env : Env) (cs : list string) :
  forall data e,
    splitShell_from env cs data = fail e ->
    exists pre cmd post,
      cs = pre ++ cmd :: post /\
      Forall (fun c => ~ bad_command env c) pre /\
      (shell_Split env cmd = fail e \/
       exists args, shell_Split env cmd = ok args /\ len args < 1 /\
                    e = ErrInvalidCommand cmd).
Proof.
  induction cs as [|c cs IH]; intros data e; simpl; [discriminate|].
  destruct (shell_Split env c) as [a|e'] eqn:Hc.
  - destruct (len a <? 1) eqn:Hl.
    + intros [= <-]. exists [], c, cs. split; [reflexivity|]. split; [constructor|].
      right. exists a. apply Z.ltb_lt in Hl. auto.
    + intros H. destruct (IH _ _ H) as (pre & cmd & post & -> & Hall & Hcmd).
      exists (c :: pre), cmd, post. split; [reflexivity|]. split; [|exact Hcmd].
      constructor; [|exact Hall]. unfold bad_command. rewrite Hc.
      apply Z.ltb_ge in Hl. lia.
  - intros [= <-]. exists [], c, cs. split; [reflexivity|]. split; [constructor|].
    now left.
Qed.

Lemma splitShell_from_args (env : Env) (cs : list string) :
  forall data ds,
    splitShell_from env cs data = ok ds ->
    exists new, ds = data ++ new /\
      Forall2 (fun c a => shell_Split env c = ok a /\ 1 <= len a) cs new.
Proof.
  induction cs as [|c cs IH]; intros data ds; simpl.
  - intros [= <-]. exists []. split; [now rewrite app_nil_r | constructor].
  - destruct (shell_Split env c) as [a|e'] eqn:Hc; [|discriminate].
    destruct (len a <? 1) eqn:Hl; [discriminate|].
    intros H. destruct (IH _ _ H) as (new & -> & Hnew).
    exists (a :: new). split; [now rewrite <- app_assoc|].
    constructor; [|exact Hnew]. apply Z.ltb_ge in Hl. auto.
Qed.

(** X2. [splitShell] splits the commands in order and stops at the first
    that [shell.Split] turns down, whose error it passes on unchanged, or
    that splits to no argument, for which it returns "invalid command";
    every command before it is good.  On success there is one argument
    list per command, in order, and none of them is empty. *)
Theorem splitShell_first_failure (env : Env) (cs : list string) :
  match splitShell env cs with
  | ok ds =>
      Forall2 (fun c a => shell_Split env c = ok a /\ 1 <= len a) cs ds
  | fail e =>
      exists pre cmd post,
        cs = pre ++ cmd :: post /\
        Forall (fun c => ~ bad_command env c) pre /\
        (shell_Split env cmd = fail e \/
         exists args, shell_Split env cmd = ok args /\ len args < 1 /\
                      e = ErrInvalidCommand cmd)
  end.
Proof.
  destruct (splitShell env cs) as [ds|e] eqn:Hc.
  - destruct (splitShell_from_args env cs [] ds Hc) as (new & -> & H). exact H.
  - exact (splitShell_from_first_failure env cs [] e Hc).
Qed.

(** The error of [valid] and the fields it computes depend on the fields
    the user sets, not on what the computed fields held before. *)
Lemma valid_same_input (env : Env) (o o' : Options) :
  same_settings o o' ->
  snd (valid env o') = snd (valid env o) /\
  (snd (valid env o) = None -> fst (valid env o') = fst (valid env o)).
Proof.
  unfold same_settings.
  intros (Hr & Hrf & Hf & Hlf & Hld & Ht & Hrps & Hb & Hs & Hl & Hrq & Hfr
          & Hc & Hhs & Hbs & Hhp & Hsp & He & Hep & Hbb).
  unfold valid.
  rewrite Hr, Hf.
  destruct (negb (Range o =? "")%string && negb (Filename o =? "")%string);
    [split; [reflexivity | discriminate]|].
  rewrite He.
  destruct (compileRegexps env (Extract_ o)) as [rs|e];
    [|split; [reflexivity | discriminate]].
  cbn [ExtractPipe HidePattern ShowPattern set_extract set_extractPipe set_hidePattern].
  rewrite Hep.
  destruct (splitShell env (ExtractPipe o)) as [cs|e];
    [|split; [reflexivity | discriminate]].
  cbn [ExtractPipe HidePattern ShowPattern set_extract set_extractPipe set_hidePattern].
  rewrite Hhp.
  destruct (compileRegexps env (HidePattern o)) as [hs|e];
    [|split; [reflexivity | discriminate]].
  cbn [ExtractPipe HidePattern ShowPattern set_extract set_extractPipe set_hidePattern].
  rewrite Hsp.
  destruct (compileRegexps env (ShowPattern o)) as [ss|e];
    [|split; [reflexivity | discriminate]].
  split; [reflexivity|]. intros _. cbn [fst].
  unfold set_showPattern, set_hidePattern, set_extractPipe, set_extract.
  cbn [Range RangeFormat Filename Logfile Logdir Threads RequestsPerSecond
       BufferSize Skip Limit Request_ FollowRedirect HideStatusCodes
       HideHeaderSize HideBodySize HidePattern hidePattern ShowPattern
       showPattern Extract_ extract ExtractPipe extractPipe BodyBufferSize].
  rewrite ?Hr, ?Hrf, ?Hf, ?Hlf, ?Hld, ?Ht, ?Hrps, ?Hb, ?Hs, ?Hl, ?Hrq, ?Hfr,
    ?Hc, ?Hhs, ?Hbs, ?Hhp, ?Hsp, ?He, ?Hep, ?Hbb.
  reflexivity.
Qed.

(** X3. Validating again changes nothing: [valid] applied to the options
    that [valid] left behind returns the same error and the same
    options. *)
Theorem valid_idempotent (env : Env) (opts : Options) :
  valid env (fst (valid env opts)) = valid env opts.
Proof.
  unfold valid at 2 3.
  destruct (negb (Range opts =? "")%string && negb (Filename opts =? "")%string)
    eqn:Hb.
  { cbn [fst]. unfold valid. now rewrite Hb. }
  destruct (compileRegexps env (Extract_ opts)) as [rs|e] eqn:HE.
  2:{ cbn [fst]. unfold valid. cbn [Range Filename Extract_ set_extract].
      now rewrite Hb, HE. }
  cbn [ExtractPipe HidePattern ShowPattern set_extract set_extractPipe set_hidePattern].
  destruct (splitShell env (ExtractPipe opts)) as [cs|e] eqn:HP.
  2:{ cbn [fst]. unfold valid.
      cbn [Range Filename Extract_ ExtractPipe set_extract set_extractPipe].
      now rewrite Hb, HE, HP. }
  cbn [ExtractPipe HidePattern ShowPattern set_extract set_extractPipe set_hidePattern].
  destruct (compileRegexps env (HidePattern opts)) as [hs|e] eqn:HH.
  2:{ cbn [fst]. unfold valid.
      cbn [Range Filename Extract_ ExtractPipe HidePattern set_extract
           set_extractPipe set_hidePattern].
      now rewrite Hb, HE, HP, HH. }
  cbn [ExtractPipe HidePattern ShowPattern set_extract set_extractPipe set_hidePattern].
  destruct (compileRegexps env (ShowPattern opts)) as [ss|e] eqn:HS.
  2:{ cbn [fst]. unfold valid.
      cbn [Range Filename Extract_ ExtractPipe HidePattern ShowPattern set_extract
           set_extractPipe set_hidePattern set_showPattern].
      now rewrite Hb, HE, HP, HH, HS. }
  cbn [fst]. unfold valid.
  cbn [Range Filename Extract_ ExtractPipe HidePattern ShowPattern set_extract
       set_extractPipe set_hidePattern set_showPattern].
  now rewrite Hb, HE, HP, HH, HS.
Qed.

(** X4. A validation that passes overwrites all four computed fields: two
    option records that agree on what the user sets come out of it equal,
    whatever their computed fields held before; and whether [valid] fails,
    and with which error, never depends on those fields. *)
Theorem valid_forgets_stale_fields (env : Env) (o o' : Options)
  (Hsame : same_settings o o') :
  snd (valid env o') = snd (valid env o) /\
  (snd (valid env o) = None -> valid env o' = valid env o).
Proof.
  destruct (valid_same_input env o o' Hsame) as [He Hf]. split; [exact He|].
  intros Hnil. rewrite (surjective_pairing (valid env o')),
    (surjective_pairing (valid env o)). now rewrite He, (Hf Hnil).
Qed.

(** Stale patterns in the computed fields do not survive a validation. *)
Lemma valid_forgets_stale_fields_witness :
  same_settings Sample.opts (set_hidePattern Sample.opts [MustCompile "old"]) /\
  valid Sample.env (set_hidePattern Sample.opts [MustCompile "old"])
  = valid Sample.env Sample.opts.
Proof.
  assert (H : same_settings Sample.opts
                (set_hidePattern Sample.opts [MustCompile "old"])).
  { unfold same_settings. cbn. repeat split. }
  split; [exact H|].
  exact (proj2 (valid_forgets_stale_fields Sample.env _ _ H) eq_refl).
Defined.

(** ** More on the set-up functions *)

(** X5. [logfilePath] fails only when a log directory is set, no log file
    is set, and the URL does not parse, and then with the parser's error;
    a log file that is set is returned as it is, whatever the directory
    and the URL; with neither set the prefix is empty; and the prefix
    made for a directory is the directory joined with
    [monsoon_<host>_<timestamp>]. *)
Theorem logfilePath_cases (env : Env) (opts : Options) (inputURL : string) :
  (forall e, logfilePath env opts inputURL = fail e <->
     Logdir opts <> "" /\ Logfile opts = "" /\
     url_Parse_Host env inputURL = fail e) /\
  (Logfile opts <> "" -> logfilePath env opts inputURL = ok (Logfile opts)) /\
  (Logfile opts = "" -> Logdir opts = "" -> logfilePath env opts inputURL = ok "") /\
  (forall host,
     Logfile opts = "" -> Logdir opts <> "" ->
     url_Parse_Host env inputURL = ok host ->
     logfilePath env opts inputURL
     = ok (filepath_Join env (Logdir opts)
             ("monsoon_" ++ host ++ "_" ++ time_Now_Format env)%string)).
Proof.
  unfold logfilePath.
  destruct (String.eqb_spec (Logdir opts) "") as [Hd|Hd];
    destruct (String.eqb_spec (Logfile opts) "") as [Hf|Hf]; cbn [negb andb];
    try destruct (url_Parse_Host env inputURL) as [h|e'];
    repeat split; intros;
    repeat match goal with H : _ /\ _ |- _ => destruct H end;
    try congruence; try discriminate; try tauto.
Qed.

(** X6. [setupProducer] never panics and makes no channel.  When it
    returns it has started exactly one producer, writing to the two
    channels given.  It fails only with: "wrong format" when a range is set
    that does not scan; the error of [os.Open] when no range is set and
    the file, neither empty nor "-", cannot be opened; "nothing to do"
    when neither is set; and then no producer is started.  A file is
    opened only when no range is set and the name is neither empty nor
    "-". *)
Theorem setupProducer_cases (env : Env) (opts : Options) (ch count : chan)
  (w : World) :
  next_chan (snd (setupProducer env opts ch count w)) = next_chan w /\
  match fst (setupProducer env opts ch count w) with
  | Ret _ =>
      producers_of (log (snd (setupProducer env opts ch count w)))
      = (ch, count) :: producers_of (log w)
  | Raise e =>
      producers_of (log (snd (setupProducer env opts ch count w)))
      = producers_of (log w) /\
      ((e = ErrRangeFormat /\ Range opts <> "" /\
        fmt_Sscanf_range env (Range opts) = None) \/
       (e = ErrNothingToDo /\ Range opts = "" /\ Filename opts = "") \/
       (os_Open env (Filename opts) = Some e /\ Range opts = "" /\
        Filename opts <> "" /\ Filename opts <> "-"))
  | Panic => False
  end /\
  opens_of (log (snd (setupProducer env opts ch count w)))
  = (if (Range opts =? "")%string
        && negb (Filename opts =? "")%string
        && negb (Filename opts =? "-")%string
     then [Filename opts] else [])
    ++ opens_of (log w).
Proof.
  unfold setupProducer, go, emit, check, bind, raise, ret, producers_of, opens_of.
  destruct (String.eqb_spec (Range opts) "") as [Hr|Hr]; cbn [negb andb].
  - destruct (String.eqb_spec (Filename opts) "-") as [Hm|Hm]; cbn [negb andb].
    + rewrite andb_false_r. cbn. auto.
    + destruct (String.eqb_spec (Filename opts) "") as [He|He]; cbn [negb andb].
      * cbn. auto 10.
      * destruct (os_Open env (Filename opts)) as [e|] eqn:Ho; cbn; auto 10.
  - destruct (fmt_Sscanf_range env (Range opts)) as [[first last]|] eqn:Hs;
      cbn; auto 10.
Qed.

(** X7. [setupTerminal] never panics and makes no channel.  It creates the
    log file [<prefix>.log] exactly when the prefix is not empty.  It fails
    only with the error of [os.Create], and then it has started no
    goroutine and has not redirected the output of the [log] package.
    When it returns it has redirected that output once and started exactly
    one terminal goroutine, for the terminal it returns: one that copies
    to the log file when there is a prefix, a plain one when there is
    none. *)
Theorem setupTerminal_cases (env : Env) (logfilePrefix : string) (w : World) :
  next_chan (snd (setupTerminal env logfilePrefix w)) = next_chan w /\
  creates_of (log (snd (setupTerminal env logfilePrefix w)))
  = (if negb (logfilePrefix =? "")%string
     then [(logfilePrefix ++ ".log")%string] else [])
    ++ creates_of (log w) /\
  match fst (setupTerminal env logfilePrefix w) with
  | Ret term =>
      term = (if negb (logfilePrefix =? "")%string
              then LogTerminal (logfilePrefix ++ ".log")%string
              else Termstatus) /\
      terminals_of (log (snd (setupTerminal env logfilePrefix w)))
      = term :: terminals_of (log w) /\
      log_outputs_of (log (snd (setupTerminal env logfilePrefix w)))
      = tt :: log_outputs_of (log w)
  | Raise e =>
      logfilePrefix <> "" /\
      os_Create env (logfilePrefix ++ ".log")%string = Some e /\
      terminals_of (log (snd (setupTerminal env logfilePrefix w)))
      = terminals_of (log w) /\
      log_outputs_of (log (snd (setupTerminal env logfilePrefix w)))
      = log_outputs_of (log w)
  | Panic => False
  end.
Proof.
  unfold setupTerminal, go, emit, check, bind, raise, ret, creates_of,
    terminals_of, log_outputs_of.
  destruct (String.eqb_spec logfilePrefix "") as [Hp|Hp]; cbn [negb].
  - cbn. auto.
  - destruct (os_Create env (logfilePrefix ++ ".log")%string) as [e|] eqn:Hc;
      cbn; auto 10.
Qed.

(** X8. [setupResponseFilters] fails exactly when a header-size or
    body-size spec is configured and [response.NewFilterSize] turns the
    specs down, and then with that error; patterns and status codes never
    make it fail. *)
Theorem setupResponseFilters_error_iff (env : Env) (opts : Options) (e : error) :
  setupResponseFilters env opts = fail e <->
  (HideHeaderSize opts <> [] \/ HideBodySize opts <> []) /\
  response_NewFilterSize env (HideHeaderSize opts) (HideBodySize opts) = Some e.
Proof.
  rewrite <- !len_pos_iff, <- orb_true_iff.
  unfold setupResponseFilters.
  destruct ((len (HideHeaderSize opts) >? 0) || (len (HideBodySize opts) >? 0)).
  - destruct (response_NewFilterSize env (HideHeaderSize opts) (HideBodySize opts))
      as [e'|].
    + split; [intros [= <-]; auto | intros [_ [= <-]]; reflexivity].
    + split; [discriminate | intros [_ H]; discriminate].
  - split; [discriminate | intros [H _]; discriminate].
Qed.

Lemma wrap64_id (z : Z) : - 2 ^ 63 <= z < 2 ^ 63 -> wrap64 z = z.
Proof.
  intros H. unfold wrap64. rewrite Z.mod_small; lia.
Qed.

Lemma wrap64_range (z : Z) : - 2 ^ 63 <= wrap64 z < 2 ^ 63.
Proof.
  unfold wrap64. pose proof (Z.mod_pos_bound (z + 2 ^ 63) (2 ^ 64)). lia.
Qed.

(** X9. The body buffer of a runner is [BodyBufferSize] MiB in bytes
    exactly when [BodyBufferSize] lies between [-2^43] and [2^43 - 1];
    outside this range the 64-bit product wraps around and the runner
    gets a different size. *)
Theorem Runner_BodyBufferSize_MiB (opts : Options) (in_ out : chan) :
  Runner_BodyBufferSize (newRunner opts in_ out)
    = BodyBufferSize opts * 1024 * 1024 <->
  - 2 ^ 43 <= BodyBufferSize opts < 2 ^ 43.
Proof.
  cbn [Runner_BodyBufferSize newRunner]. split.
  - intros H.
    pose proof (wrap64_range (wrap64 (BodyBufferSize opts * 1024) * 1024)) as Hr.
    rewrite H in Hr. lia.
  - intros H. rewrite (wrap64_id (BodyBufferSize opts * 1024)) by lia.
    rewrite wrap64_id by lia. reflexivity.
Qed.

(** X10. [startRunners] makes one channel, unbuffered, and returns it;
    it calls [wg.Add(1)] once per runner it starts, starts exactly one
    closing goroutine, for the channel it returns, and every runner reads
    the channel given and writes to the channel returned; it builds no
    stage, and whatever was in the log before stays. *)
Theorem startRunners_shape (opts : Options) (in_ : chan) (w : World) :
  fst (startRunners opts in_ w) = Ret (next_chan w) /\
  next_chan (snd (startRunners opts in_ w)) = S (next_chan w) /\
  List.length (wg_adds_of (log (snd (startRunners opts in_ w))))
  = (Z.to_nat (Threads opts) + List.length (wg_adds_of (log w)))%nat /\
  List.length (runners_of (log (snd (startRunners opts in_ w))))
  = (Z.to_nat (Threads opts) + List.length (runners_of (log w)))%nat /\
  closers_of (log (snd (startRunners opts in_ w)))
  = next_chan w :: closers_of (log w) /\
  stages_of (log (snd (startRunners opts in_ w))) = stages_of (log w) /\
  (forall r, In r (runners_of (log (snd (startRunners opts in_ w)))) ->
     In r (runners_of (log w)) \/
     (Runner_in r = in_ /\ Runner_out r = next_chan w)) /\
  In (EvMake (next_chan w) 0) (log (snd (startRunners opts in_ w))).
Proof.
  rewrite startRunners_spec. cbn [fst snd next_chan log].
  split; [reflexivity|]. split; [reflexivity|].
  unfold wg_adds_of, runners_of, closers_of, stages_of.
  cbn [pick]. rewrite !pick_app, !pick_turns. cbn [pick].
  rewrite !concat_repeat_one, !concat_repeat_nil.
  rewrite !length_app, !repeat_length. cbn [app].
  repeat split.
  - intros r Hin. apply in_app_or in Hin. destruct Hin as [Hin|Hin]; [|now left].
    apply repeat_spec in Hin. subst r. right. split; reflexivity.
  - right. apply in_or_app. right. now left.
Qed.

(** X11. The limit is reached, not only kept: against a server that
    answers every request with a redirect, the client follows exactly
    [FollowRedirect] redirects (none when the limit is not positive) and
    then returns the redirect reply it stopped at, without error. *)
Theorem redirects_followed_to_the_limit (opts : Options)
  (server : HttpRequest -> Http.Reply) (req : HttpRequest)
  (Hserver : forall r, exists location, server r = Http.Redirect location) :
  exists location sent,
    Http.do (S (Z.to_nat (FollowRedirect opts))) (CheckRedirect opts)
      server req [] = Some (Http.Redirect location, None, sent) /\
    Http.followed sent = Z.max 0 (FollowRedirect opts).
Proof.
  assert (Hgen : forall fuel r via,
            Z.max 0 (FollowRedirect opts - len via) < Z.of_nat fuel ->
            exists location sent,
              Http.do fuel (CheckRedirect opts) server r via
              = Some (Http.Redirect location, None, sent) /\
              len sent = Z.max (len via + 1) (FollowRedirect opts + 1)).
  { induction fuel as [|fuel IH]; intros r via Hfuel; [lia|].
    cbn [Http.do].
    assert (Hlen : len (via ++ [r]) = len via + 1)
      by (rewrite len_app; reflexivity).
    destruct (Hserver r) as [loc ->].
    destruct (CheckRedirect opts (mkHttpRequest loc) (via ++ [r])) as [e|] eqn:Hc.
    - unfold CheckRedirect in Hc.
      destruct (len (via ++ [r]) <=? FollowRedirect opts) eqn:Hle; [discriminate|].
      injection Hc as <-. apply Z.leb_gt in Hle.
      exists loc, (via ++ [r]). split; [reflexivity | lia].
    - apply CheckRedirect_nil_iff in Hc.
      destruct (IH (mkHttpRequest loc) (via ++ [r])) as (l & sent & Hdo & Hs);
        [lia|].
      exists l, sent. split; [exact Hdo | lia]. }
  destruct (Hgen (S (Z.to_nat (FollowRedirect opts))) req [])
    as (l & sent & Hdo & Hs).
  - change (len (@nil HttpRequest)) with 0. lia.
  - exists l, sent. split; [exact Hdo|]. unfold Http.followed.
    change (len (@nil HttpRequest)) with 0 in Hs. lia.
Qed.

(** A limit of two against the server that always redirects. *)
Lemma redirects_followed_to_the_limit_witness :
  exists location sent,
    Http.do 3 (CheckRedirect Sample.opts_follow2) Sample.redirecting
      (mkHttpRequest "/") [] = Some (Http.Redirect location, None, sent) /\
    Http.followed sent = 2.
Proof.
  exact (redirects_followed_to_the_limit Sample.opts_follow2 Sample.redirecting
           (mkHttpRequest "/") (fun _ => ex_intro _ "/next" eq_refl)).
Defined.

(** ** More on the pool of runners *)

(** X12. The counter of [wg] is never negative: in every state the pool can
    reach it is the number of runners that have not called [wg.Done()],
    plus one between a [wg.Add(1)] and the [go] that follows; there are
    never more than [Threads] runners; and the goroutine that calls
    [wg.Wait()] exists only once the loop is over and all [Threads]
    runners are started, so no [wg.Add] comes after [wg.Wait] has begun. *)
Theorem wg_counter_invariant (T : Z) (s : Pool.State)
  (Hreach : Pool.reachable T s) :
  0 <= Pool.wg s /\
  Pool.wg s = Pool.active (Pool.runners s)
              + (match Pool.main s with Pool.AtGo _ => 1 | _ => 0 end) /\
  (List.length (Pool.runners s) <= Z.to_nat T)%nat /\
  (Pool.closer s <> Pool.NotStarted ->
   Pool.main s = Pool.Returned /\
   List.length (Pool.runners s) = Z.to_nat T).
Proof.
  apply inv_reachable in Hreach. unfold Pool.inv in Hreach.
  destruct Hreach as (Hm & _ & _).
  pose proof (active_nonneg (Pool.runners s)) as Hnn.
  destruct (Pool.main s); destruct Hm as (H1 & H2 & H3);
    repeat split; try lia; try tauto; try congruence;
    try (intros; exfalso; tauto).
Qed.

(** One thread, all done: the counter is back at zero. *)
Lemma wg_counter_invariant_witness :
  Pool.wg Pool.closed_one = 0 /\
  (List.length (Pool.runners Pool.closed_one) <= 1)%nat.
Proof.
  destruct (wg_counter_invariant 1 Pool.closed_one closed_one_reachable)
    as (_ & H & Hlen & _).
  split; [exact H | exact Hlen].
Defined.

Lemma of_runners_mid (l1 l2 : list Pool.RunnerPc) (r : Pool.RunnerPc) :
  Weight.of_runners (l1 ++ r :: l2)
  = Weight.of_runners l1 + Weight.of_runner r + Weight.of_runners l2.
Proof.
  induction l1 as [|a l1 IH]; cbn [app Weight.of_runners]; [lia | rewrite IH; lia].
Qed.

Lemma of_runners_nonneg (l : list Pool.RunnerPc) : 0 <= Weight.of_runners l.
Proof.
  induction l as [|a l IH]; cbn [Weight.of_runners]; [lia|].
  destruct a; cbn [Weight.of_runner]; lia.
Qed.

Lemma active_running (rs : list Pool.RunnerPc) :
  Pool.active rs <> 0 ->
  exists rs1 r rs2, rs = rs1 ++ r :: rs2 /\ Pool.running r = true.
Proof.
  induction rs as [|a rs IH]; simpl; [congruence|].
  destruct (Pool.running a) eqn:Ha.
  - intros _. exists [], a, rs. auto.
  - intros H. destruct IH as (rs1 & r & rs2 & -> & Hr); [lia|].
    exists (a :: rs1), r, rs2. auto.
Qed.

Lemma weight_nonneg (T : Z) (s : Pool.State) :
  Pool.inv T s -> 0 <= Weight.of_state T s.
Proof.
  destruct s as [mn w rs c oc n m p]. unfold Pool.inv, Weight.of_state.
  cbn [Pool.main Pool.wg Pool.runners Pool.closer Pool.out_closed Pool.panicked].
  intros (Hm & _ & _).
  pose proof (of_runners_nonneg rs).
  destruct mn, c; cbn [Weight.of_main Weight.of_closer]; lia.
Qed.

(** While the channel is open some goroutine can step, and in a way that
    brings the pool nearer to closing it. *)
Lemma pool_step_down (T : Z) (s : Pool.State) :
  Pool.inv T s -> Pool.out_closed s = false ->
  exists s', Pool.step T s s' /\ Weight.of_state T s' < Weight.of_state T s.
Proof.
  destruct s as [mn w rs c oc n m p]. unfold Pool.inv, Weight.of_state.
  cbn [Pool.main Pool.wg Pool.runners Pool.closer Pool.out_closed Pool.panicked].
  intros (Hm & Hc & Hp) Hoc. subst oc.
  destruct mn as [i|i| |].
  - (* at the loop test *)
    destruct (Z_lt_dec i T) as [Hlt|Hge].
    + eexists. split; [apply Pool.step_add; exact Hlt|].
      cbn [Pool.main Pool.runners Pool.closer Weight.of_main]. lia.
    + eexists. split; [apply Pool.step_loop_exit; exact Hge|].
      cbn [Pool.main Pool.runners Pool.closer Weight.of_main]. lia.
  - (* at the go of a runner *)
    eexists. split; [apply Pool.step_go|].
    cbn [Pool.main Pool.runners Pool.closer Weight.of_main].
    rewrite of_runners_mid. cbn [Weight.of_runners Weight.of_runner]. lia.
  - (* at the go of the closing goroutine *)
    destruct Hm as (_ & _ & ->).
    eexists. split; [apply Pool.step_go_closer|].
    cbn [Pool.main Pool.runners Pool.closer Weight.of_main Weight.of_closer]. lia.
  - (* returned *)
    destruct Hm as (Hlen & Hw & Hns).
    destruct c; [congruence| | |destruct Hc; discriminate].
    + (* the closing goroutine waits *)
      destruct (Z.eq_dec (Pool.active rs) 0) as [Hz|Hnz].
      * rewrite Hz in Hw. subst w.
        eexists. split; [apply Pool.step_wait|].
        cbn [Pool.main Pool.runners Pool.closer Weight.of_main Weight.of_closer].
        lia.
      * destruct (active_running rs Hnz) as (rs1 & r & rs2 & -> & Hr).
        destruct r; [| | |discriminate].
        -- eexists. split;
             [apply (Pool.step_run_returns T _ _ rs1 Pool.Idle rs2); now left|].
           cbn [Pool.main Pool.runners Pool.closer].
           rewrite !of_runners_mid. cbn [Weight.of_runner]. lia.
        -- eexists. split;
             [apply (Pool.step_run_returns T _ _ rs1 Pool.Busy rs2); now right|].
           cbn [Pool.main Pool.runners Pool.closer].
           rewrite !of_runners_mid. cbn [Weight.of_runner]. lia.
        -- eexists. split; [apply Pool.step_done|].
           cbn [Pool.main Pool.runners Pool.closer].
           rewrite !of_runners_mid. cbn [Weight.of_runner]. lia.
    + (* the closing goroutine is about to close *)
      eexists. split; [apply Pool.step_close|].
      cbn [Pool.main Pool.runners Pool.closer Weight.of_closer]. lia.
Qed.

Lemma sync_step_is_step (T : Z) (s s' : Pool.State) :
  Sync.step T s s' -> Pool.step T s s'.
Proof. intros H. destruct H; now constructor. Qed.

Lemma active_past_run (rs : list Pool.RunnerPc) :
  Forall (fun r => Sync.past_run r = true) rs ->
  Pool.active rs <> 0 ->
  exists rs1 rs2, rs = rs1 ++ Pool.AtDone :: rs2.
Proof.
  intros Hall Hact.
  destruct (active_running rs Hact) as (rs1 & r & rs2 & -> & Hr).
  apply Forall_elt in Hall. exists rs1, rs2.
  destruct r; try discriminate; reflexivity.
Qed.

(** X13. The barrier of [startRunners] never gets stuck by itself: in
    every state the pool can reach in which no runner is inside
    [runner.Run] (every runner started so far has returned from it),
    the output channel is closed, or one of the steps that [main.go]
    itself takes (the loop, a [go], [wg.Done()], [wg.Wait()] with the
    counter at zero, [close(out)]) is possible; none of these waits for a
    channel. *)
Theorem barrier_never_stuck (T : Z) (s : Pool.State)
  (Hreach : Pool.reachable T s)
  (Hpast : Forall (fun r => Sync.past_run r = true) (Pool.runners s)) :
  Pool.out_closed s = true \/
  exists s', Sync.step T s s' /\ Pool.step T s s'.
Proof.
  apply inv_reachable in Hreach.
  destruct s as [mn w rs c oc n m p]. unfold Pool.inv in Hreach.
  cbn [Pool.main Pool.wg Pool.runners Pool.closer Pool.out_closed Pool.panicked]
    in *.
  destruct Hreach as (Hm & Hc & Hp).
  assert (Hstep : forall s', Sync.step T (Pool.mkState mn w rs c oc n m p) s' ->
            oc = true \/
            exists s', Sync.step T (Pool.mkState mn w rs c oc n m p) s' /\
                       Pool.step T (Pool.mkState mn w rs c oc n m p) s').
  { intros s' H. right. exists s'. split; [exact H | now apply sync_step_is_step]. }
  destruct mn as [i|i| |].
  - destruct (Z_lt_dec i T) as [Hlt|Hge].
    + eapply Hstep. apply Sync.add. exact Hlt.
    + eapply Hstep. apply Sync.loop_exit. exact Hge.
  - eapply Hstep. apply Sync.go_runner.
  - destruct Hm as (_ & _ & ->). eapply Hstep. apply Sync.go_closer.
  - destruct Hm as (Hlen & Hw & Hns).
    destruct c; [congruence| | |destruct Hc; now left].
    + destruct (Z.eq_dec (Pool.active rs) 0) as [Hz|Hnz].
      * rewrite Hz in Hw. subst w. eapply Hstep. apply Sync.wait.
      * destruct (active_past_run rs Hpast Hnz) as (rs1 & rs2 & ->).
        eapply Hstep. apply Sync.done.
    + eapply Hstep. apply Sync.close.
Qed.

Lemma waiting_for_done_reachable :
  Pool.reachable 1
    (Pool.mkState Pool.Returned 1 [Pool.AtDone] Pool.AtWait false 0 0 false).
Proof.
  eapply Pool.reach_step;
    [|exact (Pool.step_run_returns 1 Pool.Returned 1 [] Pool.Idle [] Pool.AtWait
               false 0 0 false (or_introl eq_refl))].
  eapply Pool.reach_step; [|apply Pool.step_go_closer].
  eapply Pool.reach_step;
    [|exact (Pool.step_loop_exit 1 1 1 [Pool.Idle] Pool.NotStarted false 0 0 false
               (Z.lt_irrefl 1))].
  eapply Pool.reach_step;
    [|exact (Pool.step_go 1 0 1 [] Pool.NotStarted false 0 0 false)].
  eapply Pool.reach_step;
    [|exact (Pool.step_add 1 0 0 [] Pool.NotStarted false 0 0 false eq_refl)].
  apply Pool.reach_init.
Qed.

(** One thread whose runner has returned while [wg.Wait()] is blocked:
    [wg.Done()] can go on. *)
Lemma barrier_never_stuck_witness :
  Pool.out_closed
    (Pool.mkState Pool.Returned 1 [Pool.AtDone] Pool.AtWait false 0 0 false)
  = true \/
  exists s',
    Sync.step 1
      (Pool.mkState Pool.Returned 1 [Pool.AtDone] Pool.AtWait false 0 0 false) s' /\
    Pool.step 1
      (Pool.mkState Pool.Returned 1 [Pool.AtDone] Pool.AtWait false 0 0 false) s'.
Proof.
  apply (barrier_never_stuck 1 _ waiting_for_done_reachable).
  repeat constructor.
Defined.

Lemma pool_closes_within (T : Z) (n : nat) :
  forall s, Pool.reachable T s -> Weight.of_state T s <= Z.of_nat n ->
    exists s', Pool.reachable T s' /\
               clos_refl_trans _ (Pool.step T) s s' /\
               Pool.out_closed s' = true.
Proof.
  induction n as [|n IH]; intros s Hreach Hw.
  - destruct (Pool.out_closed s) eqn:Hoc.
    + exists s. split; [assumption | split; [apply rt_refl | assumption]].
    + destruct (pool_step_down T s (inv_reachable T s Hreach) Hoc)
        as (s1 & Hs & Hlt).
      pose proof (weight_nonneg T s1
                    (inv_reachable T s1 (Pool.reach_step T s s1 Hreach Hs))).
      lia.
  - destruct (Pool.out_closed s) eqn:Hoc.
    + exists s. split; [assumption | split; [apply rt_refl | assumption]].
    + destruct (pool_step_down T s (inv_reachable T s Hreach) Hoc)
        as (s1 & Hs & Hlt).
      destruct (IH s1 (Pool.reach_step T s s1 Hreach Hs)) as (s' & Hr' & Hst & Hc);
        [lia|].
      exists s'. split; [assumption | split; [|assumption]].
      eapply rt_trans; [apply rt_step; exact Hs | exact Hst].
Qed.

Lemma inv_closed_all_done (T : Z) (s : Pool.State) :
  Pool.inv T s -> Pool.out_closed s = true ->
  List.length (Pool.runners s) = Z.to_nat T /\
  Forall (fun r => Pool.running r = false) (Pool.runners s).
Proof.
  destruct s as [mn w rs c oc n m p]. unfold Pool.inv.
  cbn [Pool.main Pool.wg Pool.runners Pool.closer Pool.out_closed Pool.panicked].
  intros (Hm & Hc & _) ->.
  destruct c; try discriminate; try (destruct Hc; discriminate).
  destruct Hc as [_ Hact].
  destruct mn;
    repeat match goal with H : _ /\ _ |- _ => destruct H end;
    try discriminate.
  split; [assumption | now apply active_zero].
Qed.

(** X14. From every state the pool can reach, the output channel can still
    be closed: there are steps of the goroutines, with every runner
    returning, that lead to a state with the channel closed; and in that
    state all [Threads] runners were started and have called
    [wg.Done()]. *)
Theorem pool_can_always_close (T : Z) (s : Pool.State)
  (Hreach : Pool.reachable T s) :
  exists s',
    clos_refl_trans _ (Pool.step T) s s' /\
    Pool.out_closed s' = true /\
    List.length (Pool.runners s') = Z.to_nat T /\
    Forall (fun r => Pool.running r = false) (Pool.runners s').
Proof.
  pose proof (weight_nonneg T s (inv_reachable T s Hreach)) as Hnn.
  destruct (pool_closes_within T (Z.to_nat (Weight.of_state T s)) s Hreach)
    as (s' & Hr' & Hst & Hc); [lia|].
  exists s'. split; [exact Hst|]. split; [exact Hc|].
  exact (inv_closed_all_done T s' (inv_reachable T s' Hr') Hc).
Qed.

(** From the start, a pool of three threads can close its channel. *)
Lemma pool_can_always_close_witness :
  exists s',
    clos_refl_trans _ (Pool.step 3) Pool.init s' /\
    Pool.out_closed s' = true /\
    List.length (Pool.runners s') = 3%nat /\
    Forall (fun r => Pool.running r = false) (Pool.runners s').
Proof. exact (pool_can_always_close 3 Pool.init (Pool.reach_init 3)). Defined.

(** ** More on [run] *)

Ltac read_more :=
  unfold opens_of, creates_of, terminals_of, closers_of, wg_adds_of,
    cancels_of, log_outputs_of;
  cbn [World0 log next_chan fst snd pick];
  rewrite ?pick_app, ?pick_turns;
  cbn [World0 log next_chan fst snd pick app];
  rewrite ?concat_repeat_nil, ?concat_repeat_one;
  cbn [app].

(** A run ends before it has done anything, or with the deferred
    [cleanup()] as its last action. *)
Lemma run_cleanup_path (env : Env) (opts : Options) (args : list string) :
  wp (run env opts args)
    (fun o w' =>
       (w' = World0 /\
        exists e, o = Raise e /\
          (((len args =? 0) = true /\ e = ErrNoURL) \/
           ((len args >? 1) = true /\ e = ErrManyURLs) \/
           snd (valid env opts) = Some e \/
           (snd (valid env opts) = None /\
            logfilePath env
              (set_Request_URL (fst (valid env opts)) (hd "" args))
              (hd "" args) = fail e))) \/
       (snd (valid env opts) = None /\
        (exists prefix,
           logfilePath env
             (set_Request_URL (fst (valid env opts)) (hd "" args))
             (hd "" args) = ok prefix /\
           creates_of (log w')
           = (if negb (prefix =? "")%string
              then [(prefix ++ ".log")%string] else []) /\
           (stores_of (log w') = [] \/
            (negb (prefix =? "")%string = true /\
             stores_of (log w') = [(prefix ++ ".json")%string]))) /\
        hd_error (log w') = Some EvCancel /\
        cancels_of (log w') = [tt]))
    World0.
Proof.
  run_paths env opts; read_more.
  all: try (exfalso; congruence).
  all: first
    [ left; split; [reflexivity|]; eexists; split; [reflexivity|]; tauto
    | right; split; [reflexivity|]; split;
      [ eexists; split; [reflexivity|]; split;
        [ match goal with
          | H : negb (_ =? "")%string = _ |- context [negb (?p =? "")%string] =>
              rewrite H
          end; reflexivity
        | first [ left; reflexivity
                | right; split; [assumption | reflexivity] ] ]
      | split; reflexivity ] ].
Qed.

(** X15. The first checks of [run] leave no trace: with no argument, with
    more than one, or with exactly one and a URL that cannot be parsed for
    the log file prefix (options valid), [run] returns the error and has
    created no file, started no goroutine and not registered a clean-up;
    the argument count is checked before the options, so its error wins
    whatever the options are.  And a run that left no trace has failed. *)
Theorem run_early_errors_touch_nothing (env : Env) (opts : Options)
  (args : list string) :
  (len args = 0 -> run env opts args World0 = (Raise ErrNoURL, World0)) /\
  (1 < len args -> run env opts args World0 = (Raise ErrManyURLs, World0)) /\
  (forall e, len args = 1 -> snd (valid env opts) = None ->
     logfilePath env opts (hd "" args) = fail e ->
     run env opts args World0 = (Raise e, World0)) /\
  (snd (run env opts args World0) = World0 ->
   exists e, fst (run env opts args World0) = Raise e).
Proof.
  split; [|split; [|split]].
  - intros H. unfold run. now rewrite H.
  - intros H. unfold run.
    destruct (len args =? 0) eqn:H0; [apply Z.eqb_eq in H0; lia|].
    apply Z.gtb_lt in H. now rewrite H.
  - intros e H Hv Hp. unfold run. rewrite H. cbn [Z.eqb Z.gtb Z.compare Pos.compare].
    rewrite (surjective_pairing (valid env opts)), Hv.
    pose proof (valid_same_settings env opts) as Hsame.
    unfold same_settings in Hsame.
    destruct Hsame as (_ & _ & _ & Hlf & Hld & _).
    rewrite (logfilePath_ext env _ opts) by (cbn [Logdir Logfile set_Request_URL]; assumption).
    rewrite Hp. reflexivity.
  - intros Hw.
    pose proof (run_cleanup_path env opts args) as H. unfold wp in H.
    destruct H as [(_ & e & He & _)|(_ & _ & Hhd & _)].
    + now exists e.
    + rewrite Hw in Hhd. discriminate.
Qed.

(** X16. Once the arguments, the options and the log file prefix are in
    order, [cleanup()] has run exactly once, and last, whenever [run]
    returns or panics: in the reporter, with an error of a later step, or
    in the panic of [make] on a negative buffer size.  Such a run calls
    [os.Create] only for the log file [<prefix>.log] and hands
    [recorder.New] only the store [<prefix>.json], each at most once and
    only when the prefix is not empty.  The buffer size is taken up to
    the default of the flag; a process that the runtime aborts runs no
    deferred call. *)
Theorem run_cleanup_exactly_once (env : Env) (opts : Options)
  (args : list string) (prefix : string)
  (Hargs : len args = 1)
  (Hvalid : snd (valid env opts) = None)
  (Hprefix : logfilePath env opts (hd "" args) = ok prefix)
  (Hbuffer : BufferSize opts <= 100000) :
  hd_error (log (snd (run env opts args World0))) = Some EvCancel /\
  cancels_of (log (snd (run env opts args World0))) = [tt] /\
  creates_of (log (snd (run env opts args World0)))
  = (if negb (prefix =? "")%string then [(prefix ++ ".log")%string] else []) /\
  (stores_of (log (snd (run env opts args World0))) = [] \/
   (prefix <> "" /\
    stores_of (log (snd (run env opts args World0)))
    = [(prefix ++ ".json")%string])).
Proof.
  pose proof (valid_same_settings env opts) as Hsame.
  unfold same_settings in Hsame.
  destruct Hsame as (_ & _ & _ & Hlf & Hld & _).
  pose proof (run_cleanup_path env opts args) as H. unfold wp in H.
  rewrite (logfilePath_ext env _ opts) in H
    by (cbn [Logdir Logfile set_Request_URL]; assumption).
  rewrite Hprefix, Hvalid in H.
  rewrite Hargs in H. cbn [Z.eqb Z.gtb Z.compare Pos.compare] in H.
  destruct H as [(_ & e & _ & [[He _]|[[He _]|[He|[_ He]]]])
                |(_ & (p & Hp & Hc & Hst) & Hhd & Hcn)];
    try discriminate.
  injection Hp as <-. repeat split; try assumption.
  destruct Hst as [Hst|[Hne Hst]]; [now left | right].
  split; [|exact Hst]. intros ->. discriminate.
Qed.

(** The sample run with [--logfile out]. *)
Lemma run_cleanup_exactly_once_witness :
  hd_error (log (snd (run Sample.env Sample.opts_logfile Sample.args World0)))
    = Some EvCancel /\
  cancels_of (log (snd (run Sample.env Sample.opts_logfile Sample.args World0)))
    = [tt] /\
  creates_of (log (snd (run Sample.env Sample.opts_logfile Sample.args World0)))
    = ["out.log"] /\
  (stores_of (log (snd (run Sample.env Sample.opts_logfile Sample.args World0)))
     = [] \/
   ("out" <> "" /\
    stores_of (log (snd (run Sample.env Sample.opts_logfile Sample.args World0)))
    = ["out.json"])).
Proof.
  assert (Hbuffer : BufferSize Sample.opts_logfile <= 100000)
    by (vm_compute; discriminate).
  exact (run_cleanup_exactly_once Sample.env Sample.opts_logfile Sample.args
           "out" eq_refl eq_refl eq_refl Hbuffer).
Defined.

(** How the runners of a run are wired. *)
Lemma run_wiring_path (env : Env) (opts : Options) (args : list string) :
  wp (run env opts args)
    (fun _ w' =>
       forall r, In r (runners_of (log w')) ->
         closers_of (log w') = [Runner_out r] /\
         (exists mo fs, In (Mark (Runner_out r) mo fs) (stages_of (log w'))) /\
         List.length (terminals_of (log w')) = 1%nat /\
         (exists vch cch,
            producers_of (log w') = [(vch, cch)] /\
            (float64_gt0 (RequestsPerSecond (fst (valid env opts))) = true ->
             exists i,
               filter is_RateLimit (stages_of (log w'))
               = [RateLimit (RequestsPerSecond (fst (valid env opts))) i
                    (Runner_in r)] /\
               if Limit (fst (valid env opts)) >? 0
               then exists j,
                      In (LimitSelect (Limit (fst (valid env opts))) j i)
                        (stages_of (log w'))
               else if Skip (fst (valid env opts)) >? 0
               then exists j,
                      In (SkipSelect (Skip (fst (valid env opts))) j i)
                        (stages_of (log w'))
               else i = vch)))
    World0.
Proof.
  run_paths env opts; read_more.
  all: intros r Hin; try contradiction.
  all: apply In_repeat_app_nil in Hin; subst r;
       cbn [Runner_in Runner_out newRunner].
  all: split; [reflexivity|].
  all: split; [eexists _, _; simpl; eauto 8|].
  all: split; [reflexivity|].
  all: eexists _, _; split; [reflexivity|].
  all: intros Hg; try congruence.
  all: eexists; split; [reflexivity|].
  all: first [reflexivity | eexists; simpl; eauto 8].
Qed.

(** X17. In every run all runners write to one channel; exactly one
    closing goroutine is started, for that channel; the marker reads that
    channel; and when runners are started, exactly one terminal and one
    producer are running. *)
Theorem run_runners_feed_marker (env : Env) (opts : Options)
  (args : list string) (r : Runner)
  (Hin : In r (runners_of (log (snd (run env opts args World0))))) :
  closers_of (log (snd (run env opts args World0))) = [Runner_out r] /\
  (exists mo fs,
     In (Mark (Runner_out r) mo fs)
       (stages_of (log (snd (run env opts args World0))))) /\
  List.length (terminals_of (log (snd (run env opts args World0)))) = 1%nat /\
  List.length (producers_of (log (snd (run env opts args World0)))) = 1%nat /\
  (forall r', In r' (runners_of (log (snd (run env opts args World0)))) ->
     r' = r).
Proof.
  pose proof (run_wiring_path env opts args) as H. unfold wp in H.
  destruct (H r Hin) as (Hc & Hm & Ht & (vch & cch & Hp & _)).
  split; [exact Hc|]. split; [exact Hm|]. split; [exact Ht|].
  split; [now rewrite Hp|].
  intros r' Hin'.
  destruct (run_runners env opts args) as [Hn|(i & o & Hr)].
  - rewrite Hn in Hin. contradiction.
  - rewrite Hr in Hin, Hin'. apply repeat_spec in Hin, Hin'. congruence.
Qed.

(** The sample run: both runners write to channel 2. *)
Lemma run_runners_feed_marker_witness :
  closers_of (log (snd (run Sample.env Sample.opts Sample.args World0)))
  = [2%nat] /\
  exists mo fs,
    In (Mark 2%nat mo fs)
      (stages_of (log (snd (run Sample.env Sample.opts Sample.args World0)))).
Proof.
  assert (Hin : In (newRunner (set_Request_URL Sample.opts "http://host/FUZZ")
                      0%nat 2%nat)
                  (runners_of
                     (log (snd (run Sample.env Sample.opts Sample.args World0)))))
    by (vm_compute; left; reflexivity).
  destruct (run_runners_feed_marker Sample.env Sample.opts Sample.args _ Hin)
    as (Hc & Hm & _).
  split; [exact Hc | exact Hm].
Defined.

(** X18. With [RequestsPerSecond > 0] a run that starts runners has built
    exactly one limiter stage, with that rate; the limiter reads the
    channel that the skip and limit stages hand on (the output of the
    limit stage if there is one, else of the skip stage if there is one,
    else the producer's value channel), and every runner reads the
    limiter's output. *)
Theorem run_rate_limited (env : Env) (opts : Options) (args : list string)
  (r : Runner)
  (Hrate : float64_gt0 (RequestsPerSecond opts) = true)
  (Hin : In r (runners_of (log (snd (run env opts args World0))))) :
  exists i vch cch,
    filter is_RateLimit (stages_of (log (snd (run env opts args World0))))
    = [RateLimit (RequestsPerSecond opts) i (Runner_in r)] /\
    producers_of (log (snd (run env opts args World0))) = [(vch, cch)] /\
    if Limit opts >? 0
    then exists j,
           In (LimitSelect (Limit opts) j i)
             (stages_of (log (snd (run env opts args World0))))
    else if Skip opts >? 0
    then exists j,
           In (SkipSelect (Skip opts) j i)
             (stages_of (log (snd (run env opts args World0))))
    else i = vch.
Proof.
  pose proof (run_wiring_path env opts args) as H. unfold wp in H.
  pose proof (valid_same_settings env opts) as Hsame.
  unfold same_settings in Hsame.
  destruct Hsame as (_ & _ & _ & _ & _ & _ & Hr & _ & Hs & Hl & _).
  rewrite Hr, Hs, Hl in H.
  destruct (H r Hin) as (_ & _ & _ & (vch & cch & Hp & Hlim)).
  destruct (Hlim Hrate) as (i & Hf & Hsrc).
  exists i, vch, cch. auto.
Qed.

(** One request per second, skipping one value: the limiter sits between
    the skip stage and the runners. *)
Lemma run_rate_limited_witness :
  exists i,
    filter is_RateLimit
      (stages_of (log (snd (run Sample.env Sample.opts_rate Sample.args World0))))
    = [RateLimit (RequestsPerSecond Sample.opts_rate) i 4%nat] /\
    exists j,
      In (SkipSelect 1 j i)
        (stages_of (log (snd (run Sample.env Sample.opts_rate Sample.args World0)))).
Proof.
  assert (Hrate : float64_gt0 (RequestsPerSecond Sample.opts_rate) = true)
    by (vm_compute; reflexivity).
  assert (Hin : In (newRunner (set_Request_URL Sample.opts_rate "http://host/FUZZ")
                      4%nat 5%nat)
                  (runners_of
                     (log (snd (run Sample.env Sample.opts_rate Sample.args World0)))))
    by (vm_compute; left; reflexivity).
  destruct (run_rate_limited Sample.env Sample.opts_rate Sample.args _ Hrate Hin)
    as (i & vch & cch & Hf & _ & Hsrc).
  exists i. split; [exact Hf|].
  vm_compute in Hsrc. vm_compute. exact Hsrc.
Defined.
